(** * goValidator: a shallow embedding of [validator.go]

    The Go package validates the fields of one struct value against the
    rules written in the fields' [validate] tags.  This file embeds the
    parser of the rule strings ([ParseConstraints]), the per-kind
    checkers ([checkStringConstraints], [checkIntConstraints],
    [checkSliceConstraints]) and the driver ([Validate]) as Rocq
    functions, and states the properties of the specification about them.

    Conventions of the embedding:
    - a Go [string] is a [string] of bytes, [len] is [String.length];
    - a Go [int] (64 bits) is a [Z]; the only place where the width shows
      is [strconv.Atoi], which clamps on overflow;
    - a run-time panic is the [Panic] outcome of the [exec] monad;
    - an [append] to the running [ValidationErrors] is [++ [_]]. *)

From Stdlib Require Import String Ascii List ZArith Lia Bool DecimalString.
From Stdlib Require DecimalNat.
Import ListNotations.

Local Open Scope string_scope.
Local Open Scope list_scope.
Local Open Scope Z_scope.

(** ** Outcomes: a value or a run-time panic *)

Inductive exec (A : Type) : Type :=
| Ret (a : A)
| Panic (msg : string).

Arguments Ret {A} a.
Arguments Panic {A} msg.

Definition bind {A B : Type} (c : exec A) (k : A -> exec B) : exec B :=
  match c with
  | Ret a => k a
  | Panic msg => Panic msg
  end.

Notation "x <- c ;; k" := (bind c (fun x => k))
  (at level 61, c at next level, right associativity).

Definition panics {A : Type} (c : exec A) : Prop :=
  exists msg, c = Panic msg.

Definition returns {A : Type} (c : exec A) : Prop :=
  exists a, c = Ret a.

(** ** The pieces of Go's standard library that the package calls *)

(** [strings.Split(s, sep)] for the one-byte separators the package uses
    (";", ":" and ","): the pieces of [s] between the separators, one more
    than there are separators; [Split "" sep] is the single piece [""]. *)
Fixpoint Split (s : string) (sep : ascii) : list string :=
  match s with
  | EmptyString => [EmptyString]
  | String ch rest =>
      if Ascii.eqb ch sep then EmptyString :: Split rest sep
      else match Split rest sep with
           | [] => [String ch EmptyString]
           | piece :: pieces => String ch piece :: pieces
           end
  end.

(** Indexing a slice: out of range is a run-time panic. *)
Definition index {A : Type} (s : list A) (i : nat) : exec A :=
  match nth_error s i with
  | Some x => Ret x
  | None => Panic "index out of range"
  end.

(** The two errors of [strconv]. *)
Inductive NumError : Type := ErrSyntax | ErrRange.

Definition is_digit (ch : ascii) : bool :=
  ((48 <=? nat_of_ascii ch) && (nat_of_ascii ch <=? 57))%nat.

Definition digit (ch : ascii) : Z := Z.of_nat (nat_of_ascii ch) - 48.

Definition maxUint64 : Z := 2 ^ 64 - 1.

(** [strconv.ParseUint(s, 10, 64)] after its emptiness test: the digits
    are accumulated left to right; a byte that is not a digit is a syntax
    error with value 0, an overflow is a range error with the largest
    value, reported where it happens. *)
Fixpoint ParseUint_loop (s : string) (n : Z) : Z * option NumError :=
  match s with
  | EmptyString => (n, None)
  | String ch rest =>
      if negb (is_digit ch) then (0, Some ErrSyntax)
      else if maxUint64 / 10 + 1 <=? n then (maxUint64, Some ErrRange)
      else
        let n1 := n * 10 + digit ch in
        if maxUint64 <? n1 then (maxUint64, Some ErrRange)
        else ParseUint_loop rest n1
  end.

Definition ParseUint (s : string) : Z * option NumError :=
  match s with
  | EmptyString => (0, Some ErrSyntax)
  | _ => ParseUint_loop s 0
  end.

(** [strconv.Atoi(s)] on a 64-bit platform, which is
    [strconv.ParseInt(s, 10, 0)]: an optional sign, then [ParseUint]; a
    syntax error gives 0, a value out of the range of [int] gives the
    nearest bound together with a range error. *)
Definition Atoi (s : string) : Z * option NumError :=
  match s with
  | EmptyString => (0, Some ErrSyntax)
  | String ch rest =>
      let neg := Ascii.eqb ch "-" in
      let body := if Ascii.eqb ch "+" || neg then rest else s in
      match ParseUint body with
      | (_, Some ErrSyntax) => (0, Some ErrSyntax)
      | (un, _) =>
          let cutoff := 2 ^ 63 in
          if negb neg && (cutoff <=? un) then (cutoff - 1, Some ErrRange)
          else if neg && (cutoff <? un) then (- cutoff, Some ErrRange)
          else (if neg then - un else un, None)
      end
  end.

(** [strconv.Itoa(i)] for the indices of a slice. *)
Definition Itoa (i : nat) : string :=
  NilEmpty.string_of_uint (Nat.to_uint i).

(** ** Data model *)

(** The package's errors: the three sentinels and the errors made on the
    spot by [errors.New]. *)
Inductive error : Type :=
| ErrNotStruct
| ErrInvalidValidatorSyntax
| ErrValidateForUnexportedFields
| errors_New (message : string).

Record ValidationError : Type := { Err : error }.

Definition ValidationErrors : Type := list ValidationError.

Record Constraints : Type := {
  len : Z;
  in_ : option (list string);
  min : Z;
  max : Z
}.

Definition NewConstraints : Constraints :=
  {| len := -1; in_ := None; min := -1; max := -1 |}.

Definition set_max (c : Constraints) (v : Z) : Constraints :=
  {| len := len c; in_ := in_ c; min := min c; max := v |}.

Definition set_min (c : Constraints) (v : Z) : Constraints :=
  {| len := len c; in_ := in_ c; min := v; max := max c |}.

Definition set_len (c : Constraints) (v : Z) : Constraints :=
  {| len := v; in_ := in_ c; min := min c; max := max c |}.

Definition set_in (c : Constraints) (v : option (list string)) : Constraints :=
  {| len := len c; in_ := v; min := min c; max := max c |}.

(** What [Validate] reads of a [reflect.StructField]: the name, whether
    the field is exported, and the value of its [validate] tag. *)
Record StructField : Type := {
  Name : string;
  IsExported : bool;
  Tag_validate : string
}.

(** The kinds of [reflect] other than string, int, slice and struct. *)
Inductive OtherKind : Type :=
| Bool | Int8 | Int16 | Int32 | Int64
| Uint | Uint8 | Uint16 | Uint32 | Uint64 | Uintptr
| Float32 | Float64 | Complex64 | Complex128
| Array | Chan | Func | Interface | Map | Pointer | UnsafePointer.

(** A Go value as [reflect] shows it.  Every value but a string and an
    int carries the name of its type, which [reflect.Value.String]
    prints. *)
#[warnings="-register-all"]
Inductive Value : Type :=
| VString (s : string)
| VInt (n : Z)
| VSlice (type : string) (elems : list Value)
| VStruct (type : string) (fields : list (StructField * Value))
| VOther (kind : OtherKind) (type : string).

Inductive Kind : Type :=
| KString | KInt | KSlice | KStruct | KOther (k : OtherKind).

Definition Value_Kind (v : Value) : Kind :=
  match v with
  | VString _ => KString
  | VInt _ => KInt
  | VSlice _ _ => KSlice
  | VStruct _ _ => KStruct
  | VOther k _ => KOther k
  end.

(** [reflect.Value.String]: the string itself for a string, and
    ["<T Value>"] for a value of any other type [T].  A value of kind
    [Int] is rendered under the type name [int]; the package never asks
    for the rendering of such a value. *)
Definition Value_String (v : Value) : string :=
  match v with
  | VString s => s
  | VInt _ => "<int Value>"
  | VSlice type _ => ("<" ++ type ++ " Value>")%string
  | VStruct type _ => ("<" ++ type ++ " Value>")%string
  | VOther _ type => ("<" ++ type ++ " Value>")%string
  end.

(** The [error] that [Validate] returns: [nil], a plain error, or a
    [ValidationErrors] list. *)
Inductive result : Type :=
| nil_error
| plain (e : error)
| list_error (v : ValidationErrors).

Definition strlen (s : string) : Z := Z.of_nat (String.length s).

(** ** The package *)

Definition ParseInt (s : string) : Z * option error :=
  match Atoi s with
  | (_, Some _) => (0, Some ErrInvalidValidatorSyntax)
  | (val, None) => (val, None)
  end.

(** The body of the loop over the clauses of [ParseConstraints]. *)
Definition parseClause (con : string)
    (st : Constraints * ValidationErrors) : exec (Constraints * ValidationErrors) :=
  let '(constraints, validationErrors) := st in
  let s := Split con ":" in
  key <- index s 0 ;;
  if (key =? "max")%string then
    arg <- index s 1 ;;
    match ParseInt arg with
    | (_, Some err) => Ret (constraints, validationErrors ++ [{| Err := err |}])
    | (max, None) => Ret (set_max constraints max, validationErrors)
    end
  else if (key =? "min")%string then
    arg <- index s 1 ;;
    match ParseInt arg with
    | (_, Some err) => Ret (constraints, validationErrors ++ [{| Err := err |}])
    | (min, None) => Ret (set_min constraints min, validationErrors)
    end
  else if (key =? "len")%string then
    arg <- index s 1 ;;
    match ParseInt arg with
    | (_, Some err) => Ret (constraints, validationErrors ++ [{| Err := err |}])
    | (l, None) =>
        if l <? 0 then
          Ret (constraints, validationErrors ++ [{| Err := errors_New "wrong length" |}])
        else Ret (set_len constraints l, validationErrors)
    end
  else if (key =? "in")%string then
    arg <- index s 1 ;;
    Ret (set_in constraints (Some (Split arg ",")), validationErrors)
  else Ret (constraints, validationErrors).

Fixpoint parseClauses (cons : list string)
    (st : Constraints * ValidationErrors) : exec (Constraints * ValidationErrors) :=
  match cons with
  | [] => Ret st
  | con :: rest => st' <- parseClause con st ;; parseClauses rest st'
  end.

Definition ParseConstraints (f : StructField) (validationErrors : ValidationErrors)
    : exec (Constraints * ValidationErrors) :=
  let constraints := NewConstraints in
  let s := Tag_validate f in
  if negb (String.length s =? 0)%nat then
    parseClauses (Split s ";") (constraints, validationErrors)
  else Ret (constraints, validationErrors).

(** The messages of the violations, labelled with the name of the field. *)
Definition violation (fieldName what : string) : ValidationError :=
  {| Err := errors_New ("field: " ++ fieldName ++ " err: " ++ what)%string |}.

Definition InvalidSyntax : ValidationError :=
  {| Err := ErrInvalidValidatorSyntax |}.

(** The search loop of the string checker: does the text equal one of the
    tokens? *)
Fixpoint findString (text : string) (tokens : list string) : bool :=
  match tokens with
  | [] => false
  | s :: rest => if (text =? s)%string then true else findString text rest
  end.

Definition checkStringConstraints (val : Value) (fieldName : string)
    (constraints : Constraints) (validationErrors : ValidationErrors)
    : ValidationErrors :=
  let validationErrors :=
    if negb (max constraints =? -1) && (max constraints <? strlen (Value_String val))
    then validationErrors ++ [violation fieldName "length can't be more than max"]
    else validationErrors in
  let validationErrors :=
    if negb (min constraints =? -1) && (strlen (Value_String val) <? min constraints)
    then validationErrors ++ [violation fieldName "length can't be less than min"]
    else validationErrors in
  let validationErrors :=
    if negb (len constraints =? -1) && negb (strlen (Value_String val) =? len constraints)
    then validationErrors ++ [violation fieldName "length must be equal to len"]
    else validationErrors in
  match in_ constraints with
  | Some tokens =>
      if findString (Value_String val) tokens then validationErrors
      else validationErrors ++ [violation fieldName "value is not contained in the 'in'"]
  | None => validationErrors
  end.

(** The search loop of the integer checker.  Every token is converted; a
    token that does not convert adds [ErrInvalidValidatorSyntax], and the
    number that [Atoi] gave back is compared with the value all the same;
    the loop stops at the first token whose number is the value. *)
Fixpoint findInt (n : Z) (tokens : list string)
    (validationErrors : ValidationErrors) : bool * ValidationErrors :=
  match tokens with
  | [] => (false, validationErrors)
  | s :: rest =>
      let '(num, err) := Atoi s in
      let validationErrors :=
        match err with
        | Some _ => validationErrors ++ [InvalidSyntax]
        | None => validationErrors
        end in
      if n =? num then (true, validationErrors)
      else findInt n rest validationErrors
  end.

(** [checkIntConstraints] is only called on a value of kind [Int]; the
    embedding passes it [val.Int()]. *)
Definition checkIntConstraints (n : Z) (fieldName : string)
    (constraints : Constraints) (validationErrors : ValidationErrors)
    : ValidationErrors :=
  let validationErrors :=
    if negb (max constraints =? -1) && (max constraints <? n)
    then validationErrors ++ [violation fieldName "value can't be more than max"]
    else validationErrors in
  let validationErrors :=
    if negb (min constraints =? -1) && (n <? min constraints)
    then validationErrors ++ [violation fieldName "value can't be less than min"]
    else validationErrors in
  let validationErrors :=
    if negb (len constraints =? -1)
    then validationErrors ++ [InvalidSyntax]
    else validationErrors in
  match in_ constraints with
  | Some tokens =>
      let '(find, validationErrors) := findInt n tokens validationErrors in
      if find then validationErrors
      else validationErrors ++ [violation fieldName "value is not contained in the 'in'"]
  | None => validationErrors
  end.

(** The label of the [i]-th element of a slice field. *)
Definition elementName (fieldName : string) (i : nat) : string :=
  (fieldName ++ " " ++ Itoa i ++ "th element")%string.

(** One round of the loop of [checkSliceConstraints]. *)
Definition checkElement (elem : Value) (fieldName : string) (i : nat)
    (constraints : Constraints) (validationErrors : ValidationErrors)
    : ValidationErrors :=
  match elem with
  | VInt n => checkIntConstraints n (elementName fieldName i) constraints validationErrors
  | _ => checkStringConstraints elem (elementName fieldName i) constraints validationErrors
  end.

(** The loop of [checkSliceConstraints], from index [i] on. *)
Fixpoint checkElements (elems : list Value) (i : nat) (fieldName : string)
    (constraints : Constraints) (validationErrors : ValidationErrors)
    : ValidationErrors :=
  match elems with
  | [] => validationErrors
  | elem :: rest =>
      checkElements rest (S i) fieldName constraints
        (checkElement elem fieldName i constraints validationErrors)
  end.

Definition checkSliceConstraints (elems : list Value) (fieldName : string)
    (constraints : Constraints) (validationErrors : ValidationErrors)
    : ValidationErrors :=
  checkElements elems 0 fieldName constraints validationErrors.

Definition CheckConstraints (val : Value) (fieldName : string)
    (constraints : Constraints) (validationErrors : ValidationErrors)
    : ValidationErrors :=
  match val with
  | VString _ => checkStringConstraints val fieldName constraints validationErrors
  | VInt n => checkIntConstraints n fieldName constraints validationErrors
  | VSlice _ elems => checkSliceConstraints elems fieldName constraints validationErrors
  | _ => validationErrors
  end.

(** The loop of [Validate] over the fields, in declaration order. *)
Fixpoint validateFields (fields : list (StructField * Value))
    (validationErrors : ValidationErrors) : exec result :=
  match fields with
  | [] =>
      match validationErrors with
      | [] => Ret nil_error
      | _ => Ret (list_error validationErrors)
      end
  | (f, val) :: rest =>
      if negb (IsExported f) && negb (String.length (Tag_validate f) =? 0)%nat then
        Ret (list_error [{| Err := ErrValidateForUnexportedFields |}])
      else
        st <- ParseConstraints f validationErrors ;;
        validateFields rest (CheckConstraints val (Name f) (fst st) (snd st))
  end.

(** [Validate(v)]; the argument is an interface value, [None] when it is
    the nil interface.  [reflect.TypeOf(nil)] is the nil [Type], and the
    call of [Kind] on it is a nil dereference. *)
Definition Validate (v : option Value) : exec result :=
  match v with
  | None => Panic "invalid memory address or nil pointer dereference"
  | Some (VStruct _ fields) => validateFields fields []
  | Some _ => Ret (plain ErrNotStruct)
  end.

(** ** The rendering of the list *)

(** [strings.Join(elems, sep)]. *)
Fixpoint Join (elems : list string) (sep : string) : string :=
  match elems with
  | [] => EmptyString
  | [a] => a
  | a :: rest => (a ++ sep ++ Join rest sep)%string
  end.

(** The method [Error] of the errors of the package: the text given to
    [errors.New]. *)
Definition error_Error (e : error) : string :=
  match e with
  | ErrNotStruct => "wrong argument given, should be a struct"
  | ErrInvalidValidatorSyntax => "invalid validator syntax"
  | ErrValidateForUnexportedFields => "validation for unexported field is not allowed"
  | errors_New message => message
  end.

(** [ValidationErrors.Error]: the messages, joined by commas. *)
Definition ValidationErrors_Error (v : ValidationErrors) : string :=
  Join (map (fun validationError => error_Error (Err validationError)) v) ",".

(** The four keys of the rule grammar. *)
Definition recognized (key : string) : Prop :=
  In key ["max"; "min"; "len"; "in"].

(** The key of a clause: what stands before its first [":"]. *)
Definition clauseKey (con : string) : string :=
  hd EmptyString (Split con ":").

(** ** Definitions used by the statements *)

Definition field (name : string) (exported : bool) (tag : string) : StructField :=
  {| Name := name; IsExported := exported; Tag_validate := tag |}.

(** A struct value of one exported field. *)
Definition record1 (name tag : string) (val : Value) : option Value :=
  Some (VStruct "T" [(field name true tag, val)]).

Definition more_than_max_length := "length can't be more than max".
Definition less_than_min_length := "length can't be less than min".
Definition not_equal_to_len := "length must be equal to len".
Definition more_than_max := "value can't be more than max".
Definition less_than_min := "value can't be less than min".
Definition not_in := "value is not contained in the 'in'".

(** The list [[v]] when the test [b] holds, and nothing otherwise: what
    one [if ... { append }] of a checker contributes. *)
Definition when (b : bool) (v : ValidationError) : ValidationErrors :=
  if b then [v] else [].

(** The violations of the string checker, one piece per statement. *)
Definition stringIn (text fieldName : string) (c : Constraints) : ValidationErrors :=
  match in_ c with
  | Some tokens => when (negb (findString text tokens)) (violation fieldName not_in)
  | None => []
  end.

Definition stringViolations (val : Value) (fieldName : string) (c : Constraints)
    : ValidationErrors :=
  when (negb (max c =? -1) && (max c <? strlen (Value_String val)))
       (violation fieldName more_than_max_length)
  ++ when (negb (min c =? -1) && (strlen (Value_String val) <? min c))
          (violation fieldName less_than_min_length)
  ++ when (negb (len c =? -1) && negb (strlen (Value_String val) =? len c))
          (violation fieldName not_equal_to_len)
  ++ stringIn (Value_String val) fieldName c.

(** The violations of the integer checker, one piece per statement. *)
Definition intIn (n : Z) (fieldName : string) (c : Constraints) : ValidationErrors :=
  match in_ c with
  | Some tokens =>
      snd (findInt n tokens [])
      ++ when (negb (fst (findInt n tokens []))) (violation fieldName not_in)
  | None => []
  end.

Definition intViolations (n : Z) (fieldName : string) (c : Constraints)
    : ValidationErrors :=
  when (negb (max c =? -1) && (max c <? n)) (violation fieldName more_than_max)
  ++ when (negb (min c =? -1) && (n <? min c)) (violation fieldName less_than_min)
  ++ when (negb (len c =? -1)) InvalidSyntax
  ++ intIn n fieldName c.

(** The violations of one element of a slice, and of the elements from
    index [i] on. *)
Definition elementViolations (elem : Value) (fieldName : string) (i : nat)
    (c : Constraints) : ValidationErrors :=
  match elem with
  | VInt n => intViolations n (elementName fieldName i) c
  | _ => stringViolations elem (elementName fieldName i) c
  end.

Fixpoint elementsViolations (elems : list Value) (i : nat) (fieldName : string)
    (c : Constraints) : ValidationErrors :=
  match elems with
  | [] => []
  | elem :: rest =>
      elementViolations elem fieldName i c
      ++ elementsViolations rest (S i) fieldName c
  end.

(** [Validate] stops at a field that is not exported and has a rule. *)
Definition fatal (f : StructField) : bool :=
  negb (IsExported f) && negb (String.length (Tag_validate f) =? 0)%nat.

(** A parse started on a list that already holds [errs]. *)
Definition extend (errs : ValidationErrors)
    (r : exec (Constraints * ValidationErrors)) : exec (Constraints * ValidationErrors) :=
  match r with
  | Ret (c, pe) => Ret (c, errs ++ pe)
  | Panic msg => Panic msg
  end.

(** What [Validate] returns for the list it has gathered. *)
Definition as_result (errs : ValidationErrors) : result :=
  match errs with
  | [] => nil_error
  | _ => list_error errs
  end.

(** Does the byte [ch] occur in [s]? *)
Fixpoint occurs (ch : ascii) (s : string) : bool :=
  match s with
  | EmptyString => false
  | String ch' rest => Ascii.eqb ch' ch || occurs ch rest
  end.

(** Does the token convert to an integer? *)
Definition converts (s : string) : bool :=
  match snd (Atoi s) with
  | None => true
  | Some _ => false
  end.

(** Is the value [n] the number of a token of the list that converts? *)
Definition member (n : Z) (tokens : list string) : bool :=
  existsb (fun s => converts s && (n =? fst (Atoi s))) tokens.

(** The [in] check of an integer field in the words of the
    specification: one [InvalidSyntax] for every token that does not
    convert, such a token being left out of the search, and one "not
    contained" violation unless the value is the number of a token that
    converts. *)
Definition intIn_as_specified (n : Z) (fieldName : string) (tokens : list string)
    : ValidationErrors :=
  map (fun _ => InvalidSyntax) (filter (fun s => negb (converts s)) tokens)
  ++ when (negb (member n tokens)) (violation fieldName not_in).


(** The part of the returned list that belongs to one field: the errors
    of parsing its rule, clause by clause, and then the violations of
    its value. *)
Definition segment (fv : StructField * Value) (seg : ValidationErrors) : Prop :=
  fatal (fst fv) = false
  /\ exists c pe,
       ParseConstraints (fst fv) [] = Ret (c, pe)
       /\ seg = pe ++ CheckConstraints (snd fv) (Name (fst fv)) c [].

(** The four constraints, in the order in which the specification lists
    their violations. *)
Inductive Key : Type := Kmax | Kmin | Klen | Kin.

Definition rank (k : Key) : nat :=
  match k with
  | Kmax => 0
  | Kmin => 1
  | Klen => 2
  | Kin => 3
  end.

(** Does [s] end with [suffix]? *)
Fixpoint has_suffix (suffix s : string) : bool :=
  (s =? suffix)%string
  || match s with
     | EmptyString => false
     | String _ rest => has_suffix suffix rest
     end.

(** The constraint that a violation is about, read off its message;
    [ErrInvalidValidatorSyntax] does not say. *)
Definition key_of (v : ValidationError) : option Key :=
  match Err v with
  | errors_New message =>
      if has_suffix "more than max" message then Some Kmax
      else if has_suffix "less than min" message then Some Kmin
      else if has_suffix "equal to len" message || (message =? "wrong length")%string
           then Some Klen
      else if has_suffix "not contained in the 'in'" message then Some Kin
      else None
  | _ => None
  end.

Fixpoint keys (errs : ValidationErrors) : list Key :=
  match errs with
  | [] => []
  | v :: rest =>
      match key_of v with
      | Some k => k :: keys rest
      | None => keys rest
      end
  end.

Fixpoint ascending (ks : list Key) : bool :=
  match ks with
  | [] => true
  | k :: rest => forallb (fun k' => (rank k <=? rank k')%nat) rest && ascending rest
  end.

(** The order of the specification within one field: max, min, len, in. *)
Definition in_claimed_order (errs : ValidationErrors) : bool :=
  ascending (keys errs).

Definition isInvalidSyntax (v : ValidationError) : bool :=
  match Err v with
  | ErrInvalidValidatorSyntax => true
  | _ => false
  end.

Definition countInvalidSyntax (errs : ValidationErrors) : nat :=
  List.length (filter isInvalidSyntax errs).


(** A rule string none of whose clauses is a key alone. *)
Definition no_bare_key (tag : string) : Prop :=
  forall key, recognized key -> ~ In key (Split tag ";").

(** What the parser keeps true of a constraint set: a length is never
    below the mark -1 of an unset one, and a set of allowed values is
    never the empty list. *)
Definition well_formed (c : Constraints) : Prop :=
  -1 <= len c /\ in_ c <> Some [].

(** The clauses that the parser reads: none for the empty rule string,
    and the pieces between the [";"] otherwise. *)
Definition ruleClauses (tag : string) : list string :=
  if (String.length tag =? 0)%nat then [] else Split tag ";".

(** The errors that one clause adds; they do not depend on the
    constraint set that the clause finds. *)
Definition clauseErrors (con : string) : ValidationErrors :=
  match parseClause con (NewConstraints, []) with
  | Ret (_, pe) => pe
  | Panic _ => []
  end.



(** * Properties *)

(** ** Sample runs *)

Example text_below_min :
  Validate (record1 "F" "min:3;max:5" (VString "ab"))
  = Ret (list_error [violation "F" less_than_min_length]).
Proof. reflexivity. Qed.

Example text_above_max :
  Validate (record1 "F" "min:3;max:5" (VString "abcdef"))
  = Ret (list_error [violation "F" more_than_max_length]).
Proof. reflexivity. Qed.

Example text_within_bounds :
  Validate (record1 "F" "min:3;max:5" (VString "abc")) = Ret nil_error.
Proof. reflexivity. Qed.

Example int_not_in :
  Validate (record1 "F" "in:1,2,3" (VInt 5))
  = Ret (list_error [violation "F" not_in]).
Proof. reflexivity. Qed.

Example int_in :
  Validate (record1 "F" "in:1,2,3" (VInt 2)) = Ret nil_error.
Proof. reflexivity. Qed.

Example Atoi_samples :
  Atoi "42" = (42, None) /\ Atoi "-7" = (-7, None) /\ Atoi "+5" = (5, None)
  /\ Atoi "" = (0, Some ErrSyntax) /\ Atoi "abc" = (0, Some ErrSyntax)
  /\ Atoi "+" = (0, Some ErrSyntax) /\ Atoi "1_0" = (0, Some ErrSyntax)
  /\ Atoi "9223372036854775807" = (9223372036854775807, None)
  /\ Atoi "9223372036854775808" = (9223372036854775807, Some ErrRange)
  /\ Atoi "-9223372036854775808" = (-9223372036854775808, None)
  /\ Atoi "-9223372036854775809" = (-9223372036854775808, Some ErrRange).
Proof. repeat split; reflexivity. Qed.

Example Split_samples :
  Split "max:2;min:3;" ";" = ["max:2"; "min:3"; ""]
  /\ Split "" ";" = [""] /\ Split "in:a:b" ":" = ["in"; "a"; "b"]
  /\ Split "max" ":" = ["max"].
Proof. repeat split; reflexivity. Qed.

(** ** The checkers only append *)

Lemma when_app (b : bool) (v : ValidationError) (errs : ValidationErrors) :
  (if b then errs ++ [v] else errs) = errs ++ when b v.
Proof. destruct b; simpl; [reflexivity | now rewrite app_nil_r]. Qed.

Lemma checkStringConstraints_parts val fieldName c errs :
  checkStringConstraints val fieldName c errs
  = errs ++ stringViolations val fieldName c.
Proof.
  unfold checkStringConstraints, stringViolations, stringIn.
  rewrite !when_app.
  destruct (in_ c) as [tokens|].
  - destruct (findString (Value_String val) tokens); simpl;
      rewrite <- ?app_assoc; [now rewrite app_nil_r | reflexivity].
  - now rewrite <- !app_assoc, app_nil_r.
Qed.

Lemma findInt_app n tokens errs :
  findInt n tokens errs
  = (fst (findInt n tokens []), errs ++ snd (findInt n tokens [])).
Proof.
  revert errs.
  induction tokens as [|s rest IH]; intros errs; simpl.
  - now rewrite app_nil_r.
  - destruct (Atoi s) as [num [e|]]; destruct (n =? num); simpl.
    + reflexivity.
    + rewrite (IH (errs ++ [InvalidSyntax])), (IH [InvalidSyntax]); simpl.
      now rewrite <- app_assoc.
    + now rewrite app_nil_r.
    + apply IH.
Qed.

Lemma checkIntConstraints_parts n fieldName c errs :
  checkIntConstraints n fieldName c errs = errs ++ intViolations n fieldName c.
Proof.
  unfold checkIntConstraints, intViolations, intIn.
  rewrite !when_app.
  destruct (in_ c) as [tokens|].
  - rewrite findInt_app; simpl.
    destruct (fst (findInt n tokens [])); simpl;
      rewrite <- ?app_assoc; [now rewrite app_nil_r | reflexivity].
  - now rewrite <- !app_assoc, app_nil_r.
Qed.

Lemma checkElement_parts elem fieldName i c errs :
  checkElement elem fieldName i c errs
  = errs ++ elementViolations elem fieldName i c.
Proof.
  destruct elem; simpl;
    first [apply checkIntConstraints_parts | apply checkStringConstraints_parts].
Qed.

Lemma checkElements_parts elems i fieldName c errs :
  checkElements elems i fieldName c errs
  = errs ++ elementsViolations elems i fieldName c.
Proof.
  revert i errs.
  induction elems as [|elem rest IH]; intros i errs; simpl.
  - now rewrite app_nil_r.
  - now rewrite IH, checkElement_parts, <- app_assoc.
Qed.

Lemma CheckConstraints_app val fieldName c errs :
  CheckConstraints val fieldName c errs
  = errs ++ CheckConstraints val fieldName c [].
Proof.
  destruct val; simpl.
  - now rewrite !checkStringConstraints_parts.
  - now rewrite !checkIntConstraints_parts.
  - unfold checkSliceConstraints. now rewrite !checkElements_parts.
  - now rewrite app_nil_r.
  - now rewrite app_nil_r.
Qed.

(** ** The parser only appends, and panics or not whatever the list *)

Lemma parseClause_extend con c errs :
  parseClause con (c, errs) = extend errs (parseClause con (c, [])).
Proof.
  unfold parseClause.
  destruct (index (Split con ":") 0) as [key|msg]; simpl; [|reflexivity].
  destruct (index (Split con ":") 1) as [arg|msg]; simpl.
  - repeat match goal with
           | |- context [if ?b then _ else _] => destruct b
           | |- context [match ParseInt ?a with _ => _ end] =>
               destruct (ParseInt a) as [? [?|]]
           end; simpl; rewrite ?app_nil_r; reflexivity.
  - repeat match goal with
           | |- context [if ?b then _ else _] => destruct b
           end; simpl; rewrite ?app_nil_r; reflexivity.
Qed.

Lemma extend_extend errs pe r :
  extend errs (extend pe r) = extend (errs ++ pe) r.
Proof. destruct r as [[c qe]|msg]; simpl; [now rewrite app_assoc | reflexivity]. Qed.

Lemma parseClauses_extend cons c errs :
  parseClauses cons (c, errs) = extend errs (parseClauses cons (c, [])).
Proof.
  revert c errs.
  induction cons as [|con rest IH]; intros c errs; cbn [parseClauses].
  - simpl. now rewrite app_nil_r.
  - rewrite parseClause_extend.
    destruct (parseClause con (c, [])) as [[c' pe]|msg]; cbn [bind extend];
      [|reflexivity].
    rewrite IH, (IH c' pe). apply eq_sym, extend_extend.
Qed.

Lemma ParseConstraints_extend f errs :
  ParseConstraints f errs = extend errs (ParseConstraints f []).
Proof.
  unfold ParseConstraints.
  destruct (negb (String.length (Tag_validate f) =? 0)%nat); simpl.
  - apply parseClauses_extend.
  - now rewrite app_nil_r.
Qed.

Lemma ParseConstraints_returns f errs c pe :
  ParseConstraints f [] = Ret (c, pe) ->
  ParseConstraints f errs = Ret (c, errs ++ pe).
Proof. intros H. now rewrite ParseConstraints_extend, H. Qed.

(** ** [strings.Split] *)

Lemma Split_cons s sep :
  Split s sep = hd EmptyString (Split s sep) :: tl (Split s sep).
Proof.
  destruct s as [|ch rest]; simpl; [reflexivity|].
  destruct (Ascii.eqb ch sep); [reflexivity|].
  destruct (Split rest sep); reflexivity.
Qed.

(** A string without the separator is one piece. *)
Lemma Split_whole s sep : occurs sep s = false -> Split s sep = [s].
Proof.
  induction s as [|ch rest IH]; simpl; intros H; [reflexivity|].
  apply orb_false_iff in H as [Hch Hrest].
  now rewrite Hch, (IH Hrest).
Qed.

(** The first piece ends at the first separator. *)
Lemma Split_first key rest sep :
  occurs sep key = false ->
  Split (key ++ String sep rest) sep = key :: Split rest sep.
Proof.
  induction key as [|ch key IH]; simpl; intros H.
  - now rewrite Ascii.eqb_refl.
  - apply orb_false_iff in H as [Hch Hkey].
    now rewrite Hch, (IH Hkey).
Qed.

(** ** [strconv.Atoi] *)

Lemma ParseUint_loop_digits s n un :
  ParseUint_loop s n = (un, None) ->
  forall ch, is_digit ch = false -> occurs ch s = false.
Proof.
  revert n.
  induction s as [|d rest IH]; cbn [ParseUint_loop occurs]; intros n H ch Hch;
    [reflexivity|].
  destruct (is_digit d) eqn:Hd; cbn [negb] in H; [|discriminate].
  destruct (maxUint64 / 10 + 1 <=? n); [discriminate|].
  destruct (maxUint64 <? n * 10 + digit d); [discriminate|].
  rewrite (IH _ H ch Hch), orb_false_r.
  apply Ascii.eqb_neq. intros ->. congruence.
Qed.

(** A string that converts holds a sign and digits only. *)
Lemma Atoi_bytes s n :
  Atoi s = (n, None) ->
  forall ch, is_digit ch = false -> ch <> "+"%char -> ch <> "-"%char ->
             occurs ch s = false.
Proof.
  destruct s as [|c rest]; [reflexivity|].
  intros H ch Hdig Hplus Hminus.
  unfold Atoi in H.
  destruct (ParseUint (if (c =? "+")%char || (c =? "-")%char then rest else String c rest))
    as [un [[|]|]] eqn:HP; try discriminate.
  - (* a range error of ParseUint never ends in success *)
    exfalso. revert H.
    assert (Hun : un = maxUint64).
    { clear - HP. unfold ParseUint in HP.
      destruct (if (c =? "+")%char || (c =? "-")%char then rest else String c rest)
        as [|d body]; [discriminate|].
      revert HP. generalize 0 at 1. generalize (String d body).
      induction s as [|e s IH]; cbn [ParseUint_loop]; intros n0 H; [discriminate|].
      destruct (is_digit e); cbn [negb] in H; [|discriminate].
      destruct (maxUint64 / 10 + 1 <=? n0); [now inversion H|].
      destruct (maxUint64 <? n0 * 10 + digit e); [now inversion H|].
      exact (IH _ H). }
    subst un.
    destruct (c =? "-")%char; simpl; discriminate.
  - assert (Hbody : occurs ch
        (if (c =? "+")%char || (c =? "-")%char then rest else String c rest) = false).
    { unfold ParseUint in HP.
      destruct (if (c =? "+")%char || (c =? "-")%char then rest else String c rest)
        as [|d body]; [reflexivity|].
      exact (ParseUint_loop_digits _ _ _ HP ch Hdig). }
    simpl.
    destruct (c =? "+")%char eqn:Hp; simpl in Hbody.
    + apply Ascii.eqb_eq in Hp. subst c.
      rewrite Hbody, orb_false_r. apply Ascii.eqb_neq. congruence.
    + destruct (c =? "-")%char eqn:Hm; simpl in Hbody.
      * apply Ascii.eqb_eq in Hm. subst c.
        rewrite Hbody, orb_false_r. apply Ascii.eqb_neq. congruence.
      * exact Hbody.
Qed.

(** ** The [in] check of an integer field *)



(** The number that [Atoi] gives back for a token that does not convert
    is compared with the value all the same: the value 0 is found in
    ["in:abc"]. *)
Example findInt_compares_failed_token :
  Validate (record1 "F" "in:abc" (VInt 0)) = Ret (list_error [InvalidSyntax])
  /\ intIn_as_specified 0 "F" ["abc"] = [InvalidSyntax; violation "F" not_in].
Proof. split; reflexivity. Qed.



(** ** The fatal errors *)

Lemma validateFields_fatal pre f val post errs :
  fatal f = true ->
  Forall (fun fv => returns (ParseConstraints (fst fv) [])) pre ->
  validateFields (pre ++ (f, val) :: post) errs
  = Ret (list_error [{| Err := ErrValidateForUnexportedFields |}]).
Proof.
  intros Hf Hpre. revert errs.
  induction Hpre as [|[g w] pre [[c pe] Hg] _ IH]; intros errs.
  - cbn [app validateFields]. unfold fatal in Hf. now rewrite Hf.
  - cbn [app validateFields fst] in *.
    destruct (negb (IsExported g) && negb (String.length (Tag_validate g) =? 0)%nat);
      [reflexivity|].
    rewrite (ParseConstraints_returns _ errs _ _ Hg). cbn [bind].
    apply IH.
Qed.

(** C2, the claim as stated fails: the error for a rule on a field
    that is not exported is not returned on its own; it is the single
    entry of a [ValidationErrors] list. *)
Lemma unexported_error_is_a_list :
  Validate (Some (VStruct "T" [(field "x" false "max:1", VInt 0)]))
    = Ret (list_error [{| Err := ErrValidateForUnexportedFields |}])
  /\ Validate (Some (VStruct "T" [(field "x" false "max:1", VInt 0)]))
     <> Ret (plain ErrValidateForUnexportedFields).
Proof. split; [reflexivity | discriminate]. Qed.

(** C2 (amended): when a field that is not exported carries a non-empty
    rule string and the rule strings of the fields before it are parsed
    without a panic, [Validate] stops at that field and returns a
    [ValidationErrors] list whose only entry is
    [ErrValidateForUnexportedFields]; whatever was gathered for the
    earlier fields is dropped. *)
Theorem Validate_unexported type pre f val post :
  IsExported f = false ->
  Tag_validate f <> "" ->
  Forall (fun fv => returns (ParseConstraints (fst fv) [])) pre ->
  Validate (Some (VStruct type (pre ++ (f, val) :: post)))
  = Ret (list_error [{| Err := ErrValidateForUnexportedFields |}]).
Proof.
  intros Hexp Htag Hpre. cbn [Validate].
  apply validateFields_fatal; [|exact Hpre].
  unfold fatal. rewrite Hexp.
  destruct (Tag_validate f); [contradiction | reflexivity].
Qed.

Lemma Validate_unexported_witness :
  Validate (Some (VStruct "T"
     ([(field "A" true "min:3", VString "ab")]
      ++ (field "b" false "max:1", VInt 0) :: [(field "C" true "", VInt 1)])))
  = Ret (list_error [{| Err := ErrValidateForUnexportedFields |}]).
Proof.
  apply (Validate_unexported "T" [(field "A" true "min:3", VString "ab")]
           (field "b" false "max:1") (VInt 0) [(field "C" true "", VInt 1)]).
  - reflexivity.
  - discriminate.
  - repeat constructor. eexists. reflexivity.
Defined.

(** The violation of the first field alone, which the fatal error of the
    second field replaces. *)
Example earlier_violation_alone :
  Validate (Some (VStruct "T" [(field "A" true "min:3", VString "ab")]))
  = Ret (list_error [violation "A" less_than_min_length]).
Proof. reflexivity. Qed.

(** C4, at the failing input: [Validate(nil)] panics, it does not return
    [ErrNotStruct]. *)
Theorem Validate_nil_panics :
  panics (Validate None) /\ Validate None <> Ret (plain ErrNotStruct).
Proof. split; [eexists; reflexivity | discriminate]. Qed.

(** Every value that is not nil and not a struct, a pointer among them,
    is refused with [ErrNotStruct] before any field is read. *)
Lemma Validate_not_struct v :
  Value_Kind v <> KStruct -> Validate (Some v) = Ret (plain ErrNotStruct).
Proof. destruct v; simpl; intros H; try reflexivity. now contradiction H. Qed.

(** ** Telling the violations apart *)

Lemma append_inj_l (p a b : string) : (p ++ a = p ++ b)%string -> a = b.
Proof.
  induction p as [|ch p IH]; simpl; intros H; [exact H|].
  apply IH. now inversion H.
Qed.

Lemma violation_inj fieldName a b :
  violation fieldName a = violation fieldName b -> a = b.
Proof.
  unfold violation. intros H. inversion H as [H'].
  apply append_inj_l in H'. simpl in H'. now inversion H'.
Qed.

Lemma In_when v b w : In v (when b w) <-> b = true /\ w = v.
Proof.
  destruct b; simpl; split.
  - intros [H|[]]. now split.
  - intros [_ H]. now left.
  - intros [].
  - intros [H _]. discriminate.
Qed.

Lemma findInt_only_syntax n tokens v :
  In v (snd (findInt n tokens [])) -> v = InvalidSyntax.
Proof.
  induction tokens as [|s rest IH]; simpl; [intros []|].
  destruct (Atoi s) as [num [e|]]; destruct (n =? num); simpl.
  - intros [H|[]]. now symmetry.
  - rewrite findInt_app. simpl. intros [H|H]; [now symmetry | now apply IH].
  - intros [].
  - exact IH.
Qed.

Lemma In_intIn v n fieldName c :
  In v (intIn n fieldName c) -> v = InvalidSyntax \/ v = violation fieldName not_in.
Proof.
  unfold intIn. destruct (in_ c) as [tokens|]; [|intros []].
  rewrite in_app_iff, In_when.
  intros [H|[_ H]]; [left; now apply (findInt_only_syntax n tokens) | now right].
Qed.

(** ** The bounds of an integer field *)

Lemma set_and_above m n :
  negb (m =? -1) && (m <? n) = true <-> m <> -1 /\ m < n.
Proof. now rewrite andb_true_iff, negb_true_iff, Z.eqb_neq, Z.ltb_lt. Qed.

Lemma set_and_below m n :
  negb (m =? -1) && (n <? m) = true <-> m <> -1 /\ n < m.
Proof. now rewrite andb_true_iff, negb_true_iff, Z.eqb_neq, Z.ltb_lt. Qed.

Lemma In_intViolations_max n fieldName c :
  In (violation fieldName more_than_max) (checkIntConstraints n fieldName c [])
  <-> max c <> -1 /\ max c < n.
Proof.
  rewrite checkIntConstraints_parts. unfold intViolations. cbn [app].
  rewrite !in_app_iff, !In_when, <- set_and_above.
  split.
  - intros [[H _]|[[_ H]|[[_ H]|H]]].
    + exact H.
    + apply violation_inj in H. discriminate.
    + discriminate.
    + apply In_intIn in H as [H|H]; [discriminate|].
      apply violation_inj in H. discriminate.
  - intros H. left. now split.
Qed.

Lemma In_intViolations_min n fieldName c :
  In (violation fieldName less_than_min) (checkIntConstraints n fieldName c [])
  <-> min c <> -1 /\ n < min c.
Proof.
  rewrite checkIntConstraints_parts. unfold intViolations. cbn [app].
  rewrite !in_app_iff, !In_when, <- set_and_below.
  split.
  - intros [[_ H]|[[H _]|[[_ H]|H]]].
    + apply violation_inj in H. discriminate.
    + exact H.
    + discriminate.
    + apply In_intIn in H as [H|H]; [discriminate|].
      apply violation_inj in H. discriminate.
  - intros H. right. left. now split.
Qed.

(** A rule of the single clause [key:s], where [s] converts, is parsed
    into the clause [key] with value [s]. *)
Lemma Split_clause key s m :
  Atoi s = (m, None) ->
  occurs ";" key = false -> occurs ":" key = false ->
  Split (key ++ String ":" s) ";" = [(key ++ String ":" s)%string]
  /\ Split (key ++ String ":" s) ":" = [key; s].
Proof.
  intros HA Hsemi Hcolon.
  assert (Hs1 : occurs ";" s = false)
    by (apply (Atoi_bytes _ _ HA); [reflexivity | discriminate | discriminate]).
  assert (Hs2 : occurs ":" s = false)
    by (apply (Atoi_bytes _ _ HA); [reflexivity | discriminate | discriminate]).
  split.
  - apply Split_whole.
    clear - Hsemi Hs1. induction key as [|ch key IH]; simpl in *.
    + exact Hs1.
    + apply orb_false_iff in Hsemi as [-> Hk]. now apply IH.
  - now rewrite Split_first, Split_whole.
Qed.

Lemma validateFields_nil errs : validateFields [] errs = Ret (as_result errs).
Proof. now destruct errs. Qed.

Lemma ParseConstraints_max fieldName exported s m errs :
  Atoi s = (m, None) ->
  ParseConstraints (field fieldName exported ("max:" ++ s)) errs
  = Ret (set_max NewConstraints m, errs).
Proof.
  intros HA.
  destruct (Split_clause "max" s m HA eq_refl eq_refl) as [H1 H2].
  unfold ParseConstraints. cbn [Tag_validate field].
  change ("max:" ++ s)%string with ("max" ++ String ":" s)%string.
  rewrite H1. cbn [String.length Nat.eqb negb append parseClauses parseClause].
  change (String "m" (String "a" (String "x" (String ":" s))))
    with ("max" ++ String ":" s)%string.
  rewrite H2. cbn [index nth_error bind]. cbn [String.eqb Ascii.eqb Bool.eqb].
  unfold ParseInt. now rewrite HA.
Qed.

Lemma ParseConstraints_min fieldName exported s m errs :
  Atoi s = (m, None) ->
  ParseConstraints (field fieldName exported ("min:" ++ s)) errs
  = Ret (set_min NewConstraints m, errs).
Proof.
  intros HA.
  destruct (Split_clause "min" s m HA eq_refl eq_refl) as [H1 H2].
  unfold ParseConstraints. cbn [Tag_validate field].
  change ("min:" ++ s)%string with ("min" ++ String ":" s)%string.
  rewrite H1. cbn [String.length Nat.eqb negb append parseClauses parseClause].
  change (String "m" (String "i" (String "n" (String ":" s))))
    with ("min" ++ String ":" s)%string.
  rewrite H2. cbn [index nth_error bind]. cbn [String.eqb Ascii.eqb Bool.eqb].
  unfold ParseInt. now rewrite HA.
Qed.

(** C3, the claim as stated fails: the bound -1 is the mark of an unset
    constraint, so with the rule ["max:-1"] the value 0, which is more
    than -1, passes; and so does the value -5 with ["min:-1"]. *)
Lemma bound_minus_one_is_unset :
  ParseConstraints (field "F" true "max:-1") [] = Ret (set_max NewConstraints (-1), [])
  /\ -1 < 0
  /\ ~ In (violation "F" more_than_max)
         (checkIntConstraints 0 "F" (set_max NewConstraints (-1)) [])
  /\ Validate (record1 "F" "max:-1" (VInt 0)) = Ret nil_error
  /\ Validate (record1 "F" "min:-1" (VInt (-5))) = Ret nil_error.
Proof.
  repeat split; try reflexivity. intros [].
Qed.

(** C3 (amended): for an integer field, a rule [max:m] with a bound [m]
    other than -1 yields the "more than max" violation exactly when the
    value is more than [m], and a rule [min:m] with such a bound yields
    the "less than min" violation exactly when the value is less than
    [m]; this holds for the negative bounds below -1 as well.  The bound
    -1 is the mark of an unset constraint: with it, as with no bound at
    all, the check is never made. *)
Theorem checkIntConstraints_bounds n fieldName exported s m c :
  Atoi s = (m, None) ->
  ParseConstraints (field fieldName exported ("max:" ++ s)) []
    = Ret (set_max NewConstraints m, [])
  /\ ParseConstraints (field fieldName exported ("min:" ++ s)) []
    = Ret (set_min NewConstraints m, [])
  /\ (In (violation fieldName more_than_max)
         (checkIntConstraints n fieldName (set_max c m) [])
      <-> m <> -1 /\ m < n)
  /\ (In (violation fieldName less_than_min)
         (checkIntConstraints n fieldName (set_min c m) [])
      <-> m <> -1 /\ n < m)
  /\ ~ In (violation fieldName more_than_max)
         (checkIntConstraints n fieldName (set_max c (-1)) [])
  /\ ~ In (violation fieldName less_than_min)
         (checkIntConstraints n fieldName (set_min c (-1)) []).
Proof.
  intros HA.
  split; [now apply ParseConstraints_max|].
  split; [now apply ParseConstraints_min|].
  split; [exact (In_intViolations_max n fieldName (set_max c m))|].
  split; [exact (In_intViolations_min n fieldName (set_min c m))|].
  split; intros H;
    [apply In_intViolations_max in H | apply In_intViolations_min in H];
    destruct H as [H _]; now apply H.
Qed.

Lemma checkIntConstraints_bounds_witness :
  ParseConstraints (field "F" true ("max:" ++ "-5")) []
    = Ret (set_max NewConstraints (-5), [])
  /\ ParseConstraints (field "F" true ("min:" ++ "-5")) []
    = Ret (set_min NewConstraints (-5), [])
  /\ (In (violation "F" more_than_max)
         (checkIntConstraints (-3) "F" (set_max NewConstraints (-5)) [])
      <-> -5 <> -1 /\ -5 < -3)
  /\ (In (violation "F" less_than_min)
         (checkIntConstraints (-3) "F" (set_min NewConstraints (-5)) [])
      <-> -5 <> -1 /\ -3 < -5)
  /\ ~ In (violation "F" more_than_max)
         (checkIntConstraints (-3) "F" (set_max NewConstraints (-1)) [])
  /\ ~ In (violation "F" less_than_min)
         (checkIntConstraints (-3) "F" (set_min NewConstraints (-1)) []).
Proof.
  apply (checkIntConstraints_bounds (-3) "F" true "-5" (-5) NewConstraints).
  reflexivity.
Defined.

(** ** The order of the returned list *)

Lemma validateFields_segments fields segs errs :
  Forall2 segment fields segs ->
  validateFields fields errs = Ret (as_result (errs ++ concat segs)).
Proof.
  intros H. revert errs.
  induction H as [|[f val] seg fields segs [Hf [c [pe [HP ->]]]] _ IH]; intros errs.
  - cbn [concat]. rewrite app_nil_r. apply validateFields_nil.
  - cbn [validateFields concat fst snd] in *.
    unfold fatal in Hf. rewrite Hf.
    rewrite (ParseConstraints_returns _ errs _ _ HP). cbn [bind fst snd].
    rewrite CheckConstraints_app, IH.
    now rewrite <- !app_assoc.
Qed.



Lemma eqb_longer (a b : string) :
  (String.length b < String.length a)%nat -> (a =? b)%string = false.
Proof.
  intros H. apply String.eqb_neq. intros ->. lia.
Qed.

Lemma length_append (a b : string) :
  String.length (a ++ b) = (String.length a + String.length b)%nat.
Proof. induction a as [|ch a IH]; simpl; [reflexivity | now rewrite IH]. Qed.

(** Whether a message ends with [suffix] is decided by its end. *)
Lemma has_suffix_skip suffix pre s :
  (String.length suffix <= String.length s)%nat ->
  has_suffix suffix (pre ++ s) = has_suffix suffix s.
Proof.
  intros H. induction pre as [|ch pre IH]; [reflexivity|].
  cbn [append has_suffix]. rewrite IH, eqb_longer; [reflexivity|].
  cbn [String.length]. rewrite length_append. lia.
Qed.

Lemma has_suffix_violation suffix fieldName what :
  (String.length suffix <= 6 + String.length what)%nat ->
  has_suffix suffix ("field: " ++ fieldName ++ " err: " ++ what)
  = has_suffix suffix (" err: " ++ what).
Proof.
  intros H.
  rewrite (has_suffix_skip suffix "field: " (fieldName ++ " err: " ++ what)).
  - apply has_suffix_skip. simpl. lia.
  - rewrite length_append. simpl. lia.
Qed.

Lemma key_of_violation fieldName what k :
  (25 <= 6 + String.length what)%nat ->
  key_of (violation "" what) = Some k ->
  key_of (violation fieldName what) = Some k.
Proof.
  intros Hlen. unfold key_of, violation. cbn [Err].
  assert (Hne : forall name,
    (("field: " ++ name ++ " err: " ++ what) =? "wrong length")%string = false).
  { intros name. apply eqb_longer. rewrite !length_append. simpl. lia. }
  rewrite (Hne fieldName), (Hne "").
  rewrite !(has_suffix_violation _ fieldName), !(has_suffix_violation _ "");
    simpl; try lia.
  trivial.
Qed.

Lemma keys_app a b : keys (a ++ b) = keys a ++ keys b.
Proof.
  induction a as [|v a IH]; [reflexivity|].
  cbn [app keys]. destruct (key_of v); cbn [app]; now rewrite IH.
Qed.

Lemma keys_when b v k : key_of v = Some k -> keys (when b v) = if b then [k] else [].
Proof. intros H. destruct b; cbn [when keys]; [now rewrite H | reflexivity]. Qed.

Lemma keys_findInt n tokens : keys (snd (findInt n tokens [])) = [].
Proof.
  assert (H : forall l, (forall v, In v l -> v = InvalidSyntax) -> keys l = []).
  { induction l as [|v l IH]; intros Hl; [reflexivity|].
    cbn [keys]. rewrite (Hl v (or_introl eq_refl)). cbn.
    apply IH. intros w Hw. apply Hl. now right. }
  apply H. apply findInt_only_syntax.
Qed.

(** The violations of the check of a text are in the order max, min,
    len, in. *)
Lemma stringViolations_order val fieldName c :
  in_claimed_order (stringViolations val fieldName c) = true.
Proof.
  unfold in_claimed_order, stringViolations, stringIn.
  rewrite !keys_app.
  rewrite (keys_when _ _ Kmax), (keys_when _ _ Kmin), (keys_when _ _ Klen);
    try (apply key_of_violation; [simpl; lia | reflexivity]).
  assert (Hin : forall b, keys (when b (violation fieldName not_in))
                          = if b then [Kin] else [])
    by (intros b; apply keys_when, key_of_violation; [simpl; lia | reflexivity]).
  destruct (in_ c) as [tokens|]; [rewrite Hin|];
    repeat match goal with
           | |- context [if ?b then _ else _] => destruct b
           end; reflexivity.
Qed.

(** So are those of the check of an integer. *)
Lemma intViolations_order n fieldName c :
  in_claimed_order (intViolations n fieldName c) = true.
Proof.
  unfold in_claimed_order, intViolations, intIn.
  rewrite !keys_app.
  rewrite (keys_when _ _ Kmax), (keys_when _ _ Kmin);
    try (apply key_of_violation; [simpl; lia | reflexivity]).
  assert (Hin : forall b, keys (when b (violation fieldName not_in))
                          = if b then [Kin] else [])
    by (intros b; apply keys_when, key_of_violation; [simpl; lia | reflexivity]).
  assert (Hlen : forall b, keys (when b InvalidSyntax) = [])
    by (now intros [|]).
  rewrite Hlen.
  destruct (in_ c) as [tokens|]; [rewrite keys_app, keys_findInt, Hin|];
    repeat match goal with
           | |- context [if ?b then _ else _] => destruct b
           end; reflexivity.
Qed.







(** The errors of the clauses come in the order of the clauses: the
    "wrong length" of the first clause before the syntax error of the
    second. *)
Example clause_errors_in_order :
  ParseConstraints (field "F" true "len:-1;max:x;min:2") []
  = Ret (set_min NewConstraints 2,
         [{| Err := errors_New "wrong length" |}; InvalidSyntax])
  /\ flat_map clauseErrors (ruleClauses "len:-1;max:x;min:2")
     = [{| Err := errors_New "wrong length" |}; InvalidSyntax].
Proof. split; reflexivity. Qed.

(** ** [len] on an integer field *)

Lemma countInvalidSyntax_app a b :
  countInvalidSyntax (a ++ b) = (countInvalidSyntax a + countInvalidSyntax b)%nat.
Proof. unfold countInvalidSyntax. now rewrite filter_app, length_app. Qed.

Lemma countInvalidSyntax_when b fieldName what :
  countInvalidSyntax (when b (violation fieldName what)) = 0%nat.
Proof. now destruct b. Qed.

(** The rule ["len:3"] on an integer field, whatever the value. *)
Example Validate_len_on_int n :
  Validate (record1 "F" "len:3" (VInt n)) = Ret (list_error [InvalidSyntax]).
Proof. reflexivity. Qed.

(** C6, the claim as stated fails: the tokens of [in] that do not
    convert add their own [InvalidSyntax], and how many of them are read
    depends on the value.  With the rule ["len:3;in:1,abc"] the value 1
    gets one [InvalidSyntax] and the value 2 gets two. *)
Lemma len_is_not_the_only_InvalidSyntax :
  ParseConstraints (field "F" true "len:3;in:1,abc") []
    = Ret (set_in (set_len NewConstraints 3) (Some ["1"; "abc"]), [])
  /\ Validate (record1 "F" "len:3;in:1,abc" (VInt 1))
     = Ret (list_error [InvalidSyntax])
  /\ Validate (record1 "F" "len:3;in:1,abc" (VInt 2))
     = Ret (list_error [InvalidSyntax; InvalidSyntax; violation "F" not_in])
  /\ countInvalidSyntax [InvalidSyntax; InvalidSyntax; violation "F" not_in] = 2%nat
  /\ countInvalidSyntax
       (checkIntConstraints 2 "F"
          (set_in (set_len NewConstraints 3) (Some ["1"; "abc"])) []) <> 1%nat.
Proof. repeat split. discriminate. Qed.

(** C6 (amended): on an integer field whose constraint set has [len],
    the check of [len] emits exactly one [InvalidSyntax], whatever the
    value, between the violations of the bounds and those of [in]; the
    list holds one more [InvalidSyntax] than for the same constraint set
    without [len], and exactly one in all when the set has no [in]. *)
Theorem checkIntConstraints_len n fieldName c :
  len c <> -1 ->
  checkIntConstraints n fieldName c []
    = when (negb (max c =? -1) && (max c <? n))
           (violation fieldName "value can't be more than max")
      ++ when (negb (min c =? -1) && (n <? min c))
              (violation fieldName "value can't be less than min")
      ++ [{| Err := ErrInvalidValidatorSyntax |}]
      ++ match in_ c with
         | Some tokens =>
             snd (findInt n tokens [])
             ++ when (negb (fst (findInt n tokens [])))
                     (violation fieldName "value is not contained in the 'in'")
         | None => []
         end
  /\ countInvalidSyntax (checkIntConstraints n fieldName c [])
    = S (countInvalidSyntax (checkIntConstraints n fieldName (set_len c (-1)) []))
  /\ (in_ c = None ->
      countInvalidSyntax (checkIntConstraints n fieldName c []) = 1%nat).
Proof.
  intros Hlen.
  rewrite !checkIntConstraints_parts. cbn [app].
  unfold intViolations, intIn. cbn [set_len len in_ min max].
  apply Z.eqb_neq in Hlen. rewrite Hlen. cbn [negb when Z.eqb].
  split; [reflexivity|].
  rewrite !countInvalidSyntax_app, !countInvalidSyntax_when.
  split.
  - cbn. lia.
  - intros ->. reflexivity.
Qed.

Lemma checkIntConstraints_len_witness :
  countInvalidSyntax
    (checkIntConstraints 7 "F" {| len := 3; in_ := None; min := 0; max := 5 |} [])
  = 1%nat.
Proof.
  refine (proj2 (proj2 (checkIntConstraints_len 7 "F"
            {| len := 3; in_ := None; min := 0; max := 5 |} _)) _).
  - simpl. lia.
  - reflexivity.
Defined.

(** ** The elements of a slice field *)


(** ** A clause whose value does not convert *)

Lemma elementsViolations_unset elems i fieldName :
  elementsViolations elems i fieldName NewConstraints = [].
Proof.
  revert i. induction elems as [|elem rest IH]; intros i; [reflexivity|].
  cbn [elementsViolations]. rewrite IH. now destruct elem.
Qed.

(** With nothing set, nothing is checked. *)
Lemma CheckConstraints_unset val fieldName errs :
  CheckConstraints val fieldName NewConstraints errs = errs.
Proof.
  rewrite CheckConstraints_app.
  destruct val; cbn [CheckConstraints];
    rewrite ?checkStringConstraints_parts, ?checkIntConstraints_parts;
    unfold checkSliceConstraints;
    rewrite ?checkElements_parts, ?elementsViolations_unset;
    cbn; now rewrite app_nil_r.
Qed.






(** Two malformed [min] clauses and a good [max] clause: [min] is unset
    after the parse. *)
Example malformed_min_is_unset :
  ParseConstraints (field "F" true "min:x;max:3;min:") []
  = Ret (set_max NewConstraints 3, [InvalidSyntax; InvalidSyntax]).
Proof. reflexivity. Qed.

(** ** A clause without a value *)

Lemma parseClause_bare_key key st :
  In key ["max"; "min"; "len"; "in"] -> panics (parseClause key st).
Proof.
  destruct st as [c errs].
  intros [<-|[<-|[<-|[<-|[]]]]]; eexists; reflexivity.
Qed.

Lemma parseClauses_bare_key key cons st :
  In key ["max"; "min"; "len"; "in"] -> In key cons ->
  panics (parseClauses cons st).
Proof.
  intros Hkey Hin. revert st.
  induction cons as [|con rest IH]; intros st; [contradiction|].
  cbn [parseClauses].
  destruct Hin as [->|Hin].
  - destruct (parseClause_bare_key key st Hkey) as [msg ->].
    eexists; reflexivity.
  - destruct (parseClause con st) as [st'|msg]; cbn [bind].
    + now apply IH.
    + eexists; reflexivity.
Qed.

(** C9: a rule string with a clause that is one of the keys [max], [min],
    [len], [in] alone, without [":"], is not empty and makes the parser
    panic: the clause splits into one piece and the piece of index 1 is
    read.  The rule string ["max"] is one. *)
Theorem ParseConstraints_bare_key f errs key :
  In key ["max"; "min"; "len"; "in"] ->
  In key (Split (Tag_validate f) ";") ->
  Tag_validate f <> ""
  /\ index (Split key ":") 1 = Panic "index out of range"
  /\ panics (ParseConstraints f errs).
Proof.
  intros Hkey Hin.
  assert (Hne : Tag_validate f <> "").
  { intros E. rewrite E in Hin. destruct Hin as [<-|[]].
    cbn in Hkey. intuition discriminate. }
  split; [exact Hne|]. split.
  - destruct Hkey as [<-|[<-|[<-|[<-|[]]]]]; reflexivity.
  - unfold ParseConstraints.
    destruct (Tag_validate f) as [|ch rest] eqn:E; [contradiction|].
    cbn [String.length Nat.eqb negb].
    now apply (parseClauses_bare_key key).
Qed.

Lemma ParseConstraints_bare_key_witness :
  Tag_validate (field "F" true "max") <> ""
  /\ index (Split "max" ":") 1 = Panic "index out of range"
  /\ panics (ParseConstraints (field "F" true "max") []).
Proof.
  apply (ParseConstraints_bare_key (field "F" true "max") [] "max");
    simpl; tauto.
Defined.

(** The whole call panics with it. *)
Example Validate_bare_key :
  Validate (record1 "F" "min:1;max" (VInt 3)) = Panic "index out of range".
Proof. reflexivity. Qed.

(** ** The elements of a slice that are not integers *)

Lemma checkElements_app pre rest i fieldName c errs :
  checkElements (pre ++ rest) i fieldName c errs
  = checkElements rest (i + List.length pre) fieldName c
      (checkElements pre i fieldName c errs).
Proof.
  revert i errs.
  induction pre as [|elem pre IH]; intros i errs; cbn [app checkElements List.length].
  - now rewrite Nat.add_0_r.
  - rewrite IH. now rewrite Nat.add_succ_r.
Qed.

(** C10: in a slice field, an element that is not of kind [Int],
    whatever its kind, is checked by the text checker on what
    [reflect.Value.String] gives for it, under the name of its index;
    it is not passed over: when its rendering is longer than a set
    [max], the violation is in the list. *)
Theorem checkSliceConstraints_not_int pre elem post fieldName c errs :
  Value_Kind elem <> KInt ->
  checkSliceConstraints (pre ++ elem :: post) fieldName c errs
  = checkElements post (S (List.length pre)) fieldName c
      (checkStringConstraints elem (elementName fieldName (List.length pre)) c
         (checkSliceConstraints pre fieldName c errs))
  /\ (max c <> -1 -> max c < strlen (Value_String elem) ->
      In (violation (elementName fieldName (List.length pre)) more_than_max_length)
         (checkSliceConstraints (pre ++ elem :: post) fieldName c errs)).
Proof.
  intros Hkind.
  assert (Heq : checkSliceConstraints (pre ++ elem :: post) fieldName c errs
    = checkElements post (S (List.length pre)) fieldName c
        (checkStringConstraints elem (elementName fieldName (List.length pre)) c
           (checkSliceConstraints pre fieldName c errs))).
  { unfold checkSliceConstraints.
    rewrite checkElements_app. cbn [checkElements Nat.add].
    destruct elem; try reflexivity. now contradiction Hkind. }
  split; [exact Heq|].
  intros Hset Hlong. rewrite Heq.
  rewrite checkElements_parts, checkStringConstraints_parts.
  unfold stringViolations.
  rewrite (proj2 (set_and_above _ _) (conj Hset Hlong)).
  rewrite !in_app_iff. left. right. left. now left.
Qed.

Lemma checkSliceConstraints_not_int_witness :
  checkSliceConstraints ([VInt 1] ++ VOther Bool "bool" :: [VString "a"]) "F"
    (set_max NewConstraints 3) []
  = checkElements [VString "a"] (S (List.length [VInt 1])) "F" (set_max NewConstraints 3)
      (checkStringConstraints (VOther Bool "bool")
         (elementName "F" (List.length [VInt 1])) (set_max NewConstraints 3)
         (checkSliceConstraints [VInt 1] "F" (set_max NewConstraints 3) []))
  /\ (max (set_max NewConstraints 3) <> -1 ->
      max (set_max NewConstraints 3) < strlen (Value_String (VOther Bool "bool")) ->
      In (violation (elementName "F" (List.length [VInt 1])) more_than_max_length)
         (checkSliceConstraints ([VInt 1] ++ VOther Bool "bool" :: [VString "a"]) "F"
            (set_max NewConstraints 3) [])).
Proof.
  apply (checkSliceConstraints_not_int [VInt 1] (VOther Bool "bool") [VString "a"]).
  simpl. discriminate.
Defined.

(** A slice of booleans under ["max:3"]: the rendering ["<bool Value>"]
    of the element is too long. *)
Example Validate_slice_of_bool :
  Validate (record1 "F" "max:3" (VSlice "[]bool" [VOther Bool "bool"]))
  = Ret (list_error [violation "F 0th element" more_than_max_length]).
Proof. reflexivity. Qed.

(** * Further properties of the package *)

(** ** [strings.Split] and [strings.Join] *)

Lemma Split_app a b sep :
  Split (a ++ String sep b) sep = Split a sep ++ Split b sep.
Proof.
  induction a as [|ch a IH]; cbn [append Split].
  - now rewrite Ascii.eqb_refl.
  - rewrite IH. destruct (Ascii.eqb ch sep); [reflexivity|].
    rewrite (Split_cons a sep). reflexivity.
Qed.

Lemma occurs_append ch a b :
  occurs ch (a ++ b) = occurs ch a || occurs ch b.
Proof.
  induction a as [|d a IH]; [reflexivity|].
  cbn [append occurs]. now rewrite IH, orb_assoc.
Qed.

Lemma occurs_Join ch elems sep :
  Forall (fun s => occurs ch s = false) elems ->
  occurs ch sep = false ->
  occurs ch (Join elems sep) = false.
Proof.
  intros H Hsep.
  induction H as [|a rest Ha Hrest IH]; [reflexivity|].
  destruct rest as [|b rest]; [exact Ha|].
  change (Join (a :: b :: rest) sep) with (a ++ sep ++ Join (b :: rest) sep)%string.
  now rewrite !occurs_append, Ha, Hsep, IH.
Qed.

(** Splitting what was joined gives the pieces back, when none of them
    holds the separator. *)
Lemma Split_Join elems sep :
  elems <> [] ->
  Forall (fun s => occurs sep s = false) elems ->
  Split (Join elems (String sep EmptyString)) sep = elems.
Proof.
  intros Hne H.
  induction H as [|a rest Ha Hrest IH]; [contradiction|].
  destruct rest as [|b rest].
  - now apply Split_whole.
  - change (Join (a :: b :: rest) (String sep EmptyString))
      with (a ++ String sep (Join (b :: rest) (String sep EmptyString)))%string.
    rewrite Split_first by exact Ha.
    now rewrite IH.
Qed.

(** ** [ValidationErrors.Error] *)

Lemma append_assoc (a b c : string) :
  ((a ++ b) ++ c = a ++ b ++ c)%string.
Proof. induction a as [|ch a IH]; cbn [append]; [reflexivity | now rewrite IH]. Qed.

Lemma Join_app a b sep :
  a <> [] -> b <> [] ->
  Join (a ++ b) sep = (Join a sep ++ sep ++ Join b sep)%string.
Proof.
  intros Ha Hb.
  induction a as [|x a IH]; [contradiction|].
  destruct a as [|y a].
  - destruct b; [contradiction | reflexivity].
  - change (Join ((x :: y :: a) ++ b) sep)
      with (x ++ sep ++ Join ((y :: a) ++ b) sep)%string.
    rewrite IH by discriminate.
    change (Join (x :: y :: a) sep) with (x ++ sep ++ Join (y :: a) sep)%string.
    now rewrite !append_assoc.
Qed.

(** X1: the rendering of a list made of two non-empty parts is the
    rendering of the first part, a comma, and the rendering of the
    second; so the messages appear in the order of the list, with one
    comma between neighbours. *)
Theorem ValidationErrors_Error_app a b :
  a <> [] -> b <> [] ->
  ValidationErrors_Error (a ++ b)
  = (ValidationErrors_Error a ++ "," ++ ValidationErrors_Error b)%string.
Proof.
  intros Ha Hb. unfold ValidationErrors_Error.
  rewrite map_app. apply Join_app.
  - destruct a; [contradiction | discriminate].
  - destruct b; [contradiction | discriminate].
Qed.

Lemma ValidationErrors_Error_app_witness :
  ValidationErrors_Error ([InvalidSyntax] ++ [violation "F" not_in])
  = (ValidationErrors_Error [InvalidSyntax] ++ ","
     ++ ValidationErrors_Error [violation "F" not_in])%string.
Proof.
  apply (ValidationErrors_Error_app [InvalidSyntax] [violation "F" not_in]);
    discriminate.
Defined.

(** X2: when no message of a non-empty list holds a comma, splitting the
    rendering at the commas gives the messages back, one for each
    violation and in the same order. *)
Theorem ValidationErrors_Error_Split v :
  v <> [] ->
  Forall (fun validationError =>
            occurs "," (error_Error (Err validationError)) = false) v ->
  Split (ValidationErrors_Error v) ","
  = map (fun validationError => error_Error (Err validationError)) v.
Proof.
  intros Hne H. unfold ValidationErrors_Error.
  apply Split_Join.
  - destruct v; [contradiction | discriminate].
  - now apply Forall_map.
Qed.

Lemma ValidationErrors_Error_Split_witness :
  Split (ValidationErrors_Error [InvalidSyntax; violation "F" more_than_max]) ","
  = map (fun validationError => error_Error (Err validationError))
        [InvalidSyntax; violation "F" more_than_max].
Proof.
  apply (ValidationErrors_Error_Split [InvalidSyntax; violation "F" more_than_max]).
  - discriminate.
  - repeat constructor.
Defined.

(** ** When the parser panics *)

Lemma Split_two s sep :
  occurs sep s = true -> exists a b rest, Split s sep = a :: b :: rest.
Proof.
  induction s as [|ch s IH]; cbn [occurs Split]; [discriminate|].
  destruct (Ascii.eqb ch sep); cbn [orb].
  - intros _. rewrite (Split_cons s sep). eauto.
  - intros H. destruct (IH H) as [a [b [rest ->]]]. eauto.
Qed.

Lemma parseClause_returns con st :
  ~ recognized con -> returns (parseClause con st).
Proof.
  intros Hcon. destruct st as [c errs]. unfold parseClause.
  destruct (occurs ":" con) eqn:Hocc.
  - destruct (Split_two _ _ Hocc) as [a [b [rest ->]]].
    cbn [index nth_error bind].
    repeat match goal with
           | |- context [if ?b then _ else _] => destruct b
           | |- context [match ParseInt ?a with _ => _ end] =>
               destruct (ParseInt a) as [? [?|]]
           end; eexists; reflexivity.
  - rewrite (Split_whole _ _ Hocc). cbn [index nth_error bind].
    assert (H : forall key, recognized key -> (con =? key)%string = false).
    { intros key Hkey. apply String.eqb_neq. intros ->. now apply Hcon. }
    rewrite !H by (unfold recognized; simpl; tauto).
    eexists; reflexivity.
Qed.

Lemma parseClauses_returns cons st :
  Forall (fun con => ~ recognized con) cons -> returns (parseClauses cons st).
Proof.
  intros H. revert st.
  induction H as [|con rest Hcon _ IH]; intros st; cbn [parseClauses].
  - eexists; reflexivity.
  - destruct (parseClause_returns con st Hcon) as [st' ->]. cbn [bind]. apply IH.
Qed.

Lemma no_bare_key_returns f errs :
  no_bare_key (Tag_validate f) -> returns (ParseConstraints f errs).
Proof.
  intros H. unfold ParseConstraints.
  destruct (negb (String.length (Tag_validate f) =? 0)%nat).
  - apply parseClauses_returns, Forall_forall.
    intros con Hin Hrec. exact (H con Hrec Hin).
  - eexists; reflexivity.
Qed.

(** X3: the parser returns exactly when no clause of the rule string is
    one of the keys [max], [min], [len], [in] alone; every other rule
    string, whatever it holds, is parsed to the end. *)
Theorem ParseConstraints_returns_iff f errs :
  returns (ParseConstraints f errs) <-> no_bare_key (Tag_validate f).
Proof.
  split; [|apply no_bare_key_returns].
  intros [st Hst] key Hkey Hin.
  assert (Hp : panics (ParseConstraints f errs)).
  { unfold ParseConstraints.
    destruct (Tag_validate f) as [|ch rest] eqn:E.
    - destruct Hin as [<-|[]]. unfold recognized in Hkey. simpl in Hkey.
      intuition discriminate.
    - cbn [String.length Nat.eqb negb].
      now apply (parseClauses_bare_key key). }
  destruct Hp as [msg Hp]. congruence.
Qed.

(** ** What [Validate] returns *)

Lemma validateFields_returns fields errs :
  Forall (fun fv => no_bare_key (Tag_validate (fst fv))) fields ->
  returns (validateFields fields errs).
Proof.
  intros H. revert errs.
  induction H as [|[f val] rest Hf _ IH]; intros errs; cbn [validateFields].
  - destruct errs; eexists; reflexivity.
  - destruct (negb (IsExported f) && negb (String.length (Tag_validate f) =? 0)%nat).
    + eexists; reflexivity.
    + destruct (no_bare_key_returns f errs Hf) as [st ->].
      cbn [bind]. apply IH.
Qed.

(** X4: for a struct none of whose rule strings has a clause that is a
    key alone, [Validate] returns: it does not panic. *)
Theorem Validate_returns type fields :
  Forall (fun fv => no_bare_key (Tag_validate (fst fv))) fields ->
  returns (Validate (Some (VStruct type fields))).
Proof. intros H. cbn [Validate]. now apply validateFields_returns. Qed.

Lemma Validate_returns_witness :
  returns (Validate (Some (VStruct "T"
    [(field "A" true "max:3;;zzz", VString "abcd"); (field "b" false "", VInt 1)]))).
Proof.
  apply (Validate_returns "T"
    [(field "A" true "max:3;;zzz", VString "abcd"); (field "b" false "", VInt 1)]).
  repeat constructor; intros key Hrec Hin; unfold recognized in Hrec;
    simpl in Hrec, Hin; intuition (subst; discriminate).
Defined.

Lemma validateFields_result fields errs r :
  validateFields fields errs = Ret r ->
  (forall l, r = list_error l -> l <> []) /\ (forall e, r <> plain e).
Proof.
  revert errs.
  induction fields as [|[f val] rest IH]; intros errs; cbn [validateFields].
  - destruct errs; intros H; inversion H; split; intros; congruence.
  - destruct (negb (IsExported f) && negb (String.length (Tag_validate f) =? 0)%nat).
    + intros H; inversion H; split; intros; congruence.
    + destruct (ParseConstraints f errs) as [st|msg]; cbn [bind];
        [apply IH | discriminate].
Qed.

(** X5: a list that [Validate] returns is never empty, since an empty
    list is returned as [nil]; and the only error that is returned on its
    own is [ErrNotStruct], which a struct never gets. *)
Theorem Validate_result v r :
  Validate v = Ret r ->
  (forall l, r = list_error l -> l <> [])
  /\ (forall e, r = plain e ->
       e = ErrNotStruct /\ forall type fields, v <> Some (VStruct type fields)).
Proof.
  destruct v as [[s|n|type elems|type fields|k type]|]; cbn [Validate];
    try (intros H; inversion H; split;
         [intros; congruence
         | intros e E; inversion E; split; [reflexivity | intros; congruence]]).
  - intros H. destruct (validateFields_result _ _ _ H) as [H1 H2].
    split; [exact H1|]. intros e E. now contradiction (H2 e).
  - discriminate.
Qed.

Lemma Validate_result_witness :
  (forall l, list_error [InvalidSyntax] = list_error l -> l <> [])
  /\ (forall e, list_error [InvalidSyntax] = plain e ->
       e = ErrNotStruct
       /\ forall type fields, record1 "F" "len:3" (VInt 1) <> Some (VStruct type fields)).
Proof.
  apply (Validate_result (record1 "F" "len:3" (VInt 1)) (list_error [InvalidSyntax])).
  reflexivity.
Defined.

Lemma validateFields_no_rules fields :
  Forall (fun fv => Tag_validate (fst fv) = "") fields ->
  validateFields fields [] = Ret nil_error.
Proof.
  intros H.
  induction H as [|[f val] rest Hf _ IH]; [reflexivity|].
  cbn [validateFields fst] in *.
  unfold ParseConstraints. rewrite Hf. cbn [String.length Nat.eqb negb andb bind fst snd].
  rewrite andb_false_r.
  now rewrite CheckConstraints_unset.
Qed.

(** X6: a struct none of whose fields carries a rule validates with no
    error, whatever the kinds and the values of the fields and whether
    they are exported or not. *)
Theorem Validate_no_rules type fields :
  Forall (fun fv => Tag_validate (fst fv) = "") fields ->
  Validate (Some (VStruct type fields)) = Ret nil_error.
Proof. intros H. cbn [Validate]. now apply validateFields_no_rules. Qed.

Lemma Validate_no_rules_witness :
  Validate (Some (VStruct "T"
    [(field "A" true "", VString "abcd"); (field "b" false "", VInt 1);
     (field "C" true "", VSlice "[]bool" [VOther Bool "bool"])]))
  = Ret nil_error.
Proof.
  apply (Validate_no_rules "T"
    [(field "A" true "", VString "abcd"); (field "b" false "", VInt 1);
     (field "C" true "", VSlice "[]bool" [VOther Bool "bool"])]).
  repeat constructor.
Defined.

(** ** The parser and the list it is given *)

(** X7: the parser keeps the violations it is given and adds its own
    after them; the constraint set and the errors added do not depend on
    the list given. *)
Theorem ParseConstraints_appends f errs c pe :
  ParseConstraints f errs = Ret (c, pe) ->
  exists added,
    pe = errs ++ added
    /\ forall errs', ParseConstraints f errs' = Ret (c, errs' ++ added).
Proof.
  intros H. rewrite ParseConstraints_extend in H.
  destruct (ParseConstraints f []) as [[c0 added]|msg] eqn:E; [|discriminate].
  cbn [extend] in H. inversion H; subst.
  exists added. split; [reflexivity|].
  intros errs'. now rewrite ParseConstraints_extend, E.
Qed.

Lemma ParseConstraints_appends_witness :
  exists added,
    [violation "A" not_in; InvalidSyntax] = [violation "A" not_in] ++ added
    /\ forall errs',
         ParseConstraints (field "F" true "max:x;min:2") errs'
         = Ret (set_min NewConstraints 2, errs' ++ added).
Proof.
  apply (ParseConstraints_appends (field "F" true "max:x;min:2")
           [violation "A" not_in]).
  reflexivity.
Defined.

(** X8: the checkers keep the violations they are given and add their
    own after them; what they add does not depend on the list given. *)
Theorem CheckConstraints_appends val fieldName c errs :
  CheckConstraints val fieldName c errs
  = errs ++ CheckConstraints val fieldName c [].
Proof.
  destruct val as [s|n|type elems|type fields|k type]; cbn [CheckConstraints].
  - now rewrite (checkStringConstraints_parts _ _ _ errs),
      (checkStringConstraints_parts _ _ _ []).
  - now rewrite (checkIntConstraints_parts _ _ _ errs),
      (checkIntConstraints_parts _ _ _ []).
  - unfold checkSliceConstraints.
    now rewrite (checkElements_parts _ _ _ _ errs), (checkElements_parts _ _ _ _ []).
  - now rewrite app_nil_r.
  - now rewrite app_nil_r.
Qed.

(** ** The constraint sets that the parser makes *)

Lemma Split_not_nil s sep : Split s sep <> [].
Proof. rewrite Split_cons. discriminate. Qed.

Lemma parseClause_well_formed con c errs c' errs' :
  well_formed c ->
  parseClause con (c, errs) = Ret (c', errs') ->
  well_formed c'.
Proof.
  intros [Hlen Hin]. unfold parseClause.
  destruct (index (Split con ":") 0) as [key|msg]; cbn [bind]; [|discriminate].
  destruct (index (Split con ":") 1) as [arg|msg]; cbn [bind].
  - repeat match goal with
           | |- context [if (?a =? ?b)%string then _ else _] =>
               destruct (a =? b)%string
           | |- context [match ParseInt ?a with _ => _ end] =>
               destruct (ParseInt a) as [l [?|]]
           | |- context [if ?l <? 0 then _ else _] =>
               destruct (Z.ltb_spec l 0) as [Hneg|Hpos]
           end;
      intros Hret; inversion Hret; subst; unfold well_formed;
      cbn [set_max set_min set_len set_in len in_];
      try (split; [assumption | assumption]).
    + split; [lia | assumption].
    + split; [assumption|]. intros E. inversion E as [E'].
      now apply Split_not_nil in E'.
  - repeat match goal with
           | |- context [if (?a =? ?b)%string then _ else _] =>
               destruct (a =? b)%string
           end;
      intros Hret; inversion Hret; subst; now split.
Qed.

Lemma parseClauses_well_formed cons c errs c' errs' :
  well_formed c ->
  parseClauses cons (c, errs) = Ret (c', errs') ->
  well_formed c'.
Proof.
  revert c errs.
  induction cons as [|con rest IH]; intros c errs Hc; cbn [parseClauses].
  - intros H. now inversion H; subst.
  - destruct (parseClause con (c, errs)) as [[c1 e1]|msg] eqn:E; cbn [bind];
      [|discriminate].
    apply IH. exact (parseClause_well_formed _ _ _ _ _ Hc E).
Qed.

(** X9: in a constraint set that the parser returns, the length is -1
    (unset) or not negative, never below -1, and the list of allowed
    values, when there is one, has at least one token. *)
Theorem ParseConstraints_well_formed f errs c pe :
  ParseConstraints f errs = Ret (c, pe) ->
  (len c = -1 \/ 0 <= len c) /\ in_ c <> Some [].
Proof.
  intros H.
  assert (Hnew : well_formed NewConstraints)
    by (split; [apply Z.le_refl | discriminate]).
  assert (Hwf : well_formed c).
  { unfold ParseConstraints in H.
    destruct (negb (String.length (Tag_validate f) =? 0)%nat).
    - exact (parseClauses_well_formed _ _ _ _ _ Hnew H).
    - now inversion H; subst. }
  destruct Hwf as [Hlen Hin]. split; [lia | exact Hin].
Qed.

Lemma ParseConstraints_well_formed_witness :
  (len (set_in (set_len NewConstraints 0) (Some [""])) = -1
   \/ 0 <= len (set_in (set_len NewConstraints 0) (Some [""])))
  /\ in_ (set_in (set_len NewConstraints 0) (Some [""])) <> Some [].
Proof.
  apply (ParseConstraints_well_formed (field "F" true "len:-3;len:0;in:") []
           _ [{| Err := errors_New "wrong length" |}]).
  reflexivity.
Defined.

(** ** Rule strings, clause by clause *)

Lemma parseClauses_app pre post st :
  parseClauses (pre ++ post) st = st' <- parseClauses pre st ;; parseClauses post st'.
Proof.
  revert st.
  induction pre as [|con pre IH]; intros st; cbn [app parseClauses bind]; [reflexivity|].
  destruct (parseClause con st) as [st'|msg]; cbn [bind]; [apply IH | reflexivity].
Qed.

Lemma ParseConstraints_then fieldName exported t1 t2 errs :
  ParseConstraints (field fieldName exported (t1 ++ ";" ++ t2)) errs
  = st <- ParseConstraints (field fieldName exported t1) errs ;;
    parseClauses (Split t2 ";") st.
Proof.
  unfold ParseConstraints. cbn [Tag_validate field].
  change (t1 ++ ";" ++ t2)%string with (t1 ++ String ";" t2)%string.
  rewrite Split_app, parseClauses_app.
  destruct t1 as [|ch t1]; reflexivity.
Qed.

(** X10: a rule string made of two parts joined by [";"] is parsed as
    the first part followed by the clauses of the second, which start
    from the constraint set and the errors that the first part left. *)
Theorem ParseConstraints_compose fieldName exported t1 t2 errs :
  ParseConstraints (field fieldName exported (t1 ++ ";" ++ t2)) errs
  = st <- ParseConstraints (field fieldName exported t1) errs ;;
    parseClauses (Split t2 ";") st.
Proof.
  unfold ParseConstraints. cbn [Tag_validate field].
  change (t1 ++ ";" ++ t2)%string with (t1 ++ String ";" t2)%string.
  rewrite Split_app, parseClauses_app.
  destruct t1 as [|ch t1].
  - (* nothing before the separator: the empty clause is skipped *)
    reflexivity.
  - reflexivity.
Qed.

Lemma parseClause_unknown con st :
  ~ recognized (clauseKey con) -> parseClause con st = Ret st.
Proof.
  intros Hkey. destruct st as [c errs]. unfold parseClause.
  unfold clauseKey in Hkey. rewrite (Split_cons con ":") in *.
  cbn [hd index nth_error bind] in *.
  assert (H : forall key, recognized key ->
                          (hd EmptyString (Split con ":") =? key)%string = false).
  { intros key Hrec. apply String.eqb_neq. intros E. rewrite E in Hkey.
    now apply Hkey. }
  now rewrite !H by (unfold recognized; simpl; tauto).
Qed.

(** X11: a clause whose key is none of [max], [min], [len], [in] is
    ignored: added at the end of a rule string it changes neither the
    constraint set nor the errors.  The empty clause is one, so a [";"]
    at the end of a rule string is harmless. *)
Theorem ParseConstraints_unknown_key fieldName exported tag con errs :
  occurs ";" con = false ->
  ~ recognized (clauseKey con) ->
  ParseConstraints (field fieldName exported (tag ++ ";" ++ con)) errs
  = ParseConstraints (field fieldName exported tag) errs.
Proof.
  intros Hsemi Hkey.
  rewrite ParseConstraints_then, (Split_whole _ _ Hsemi).
  destruct (ParseConstraints (field fieldName exported tag) errs) as [st|msg];
    cbn [bind parseClauses]; [|reflexivity].
  now rewrite (parseClause_unknown con st Hkey).
Qed.

Lemma ParseConstraints_unknown_key_witness :
  ParseConstraints (field "F" true ("max:3;in:a,b" ++ ";" ++ "")) []
  = ParseConstraints (field "F" true "max:3;in:a,b") [].
Proof.
  apply (ParseConstraints_unknown_key "F" true "max:3;in:a,b" "" []).
  - reflexivity.
  - unfold recognized. simpl. intuition discriminate.
Defined.

Lemma parseClause_max s m c errs :
  Atoi s = (m, None) ->
  parseClause ("max:" ++ s) (c, errs) = Ret (set_max c m, errs).
Proof.
  intros HA.
  destruct (Split_clause "max" s m HA eq_refl eq_refl) as [_ H2].
  unfold parseClause.
  change ("max:" ++ s)%string with ("max" ++ String ":" s)%string.
  rewrite H2. cbn [index nth_error bind String.eqb Ascii.eqb Bool.eqb].
  unfold ParseInt. now rewrite HA.
Qed.

Lemma parseClause_keeps_max con c errs c' errs' :
  clauseKey con <> "max" ->
  parseClause con (c, errs) = Ret (c', errs') ->
  max c' = max c.
Proof.
  unfold parseClause, clauseKey.
  destruct (Split con ":") as [|key [|arg more]];
    cbn [hd index nth_error bind]; intros Hkey; [discriminate| |];
    apply String.eqb_neq in Hkey; rewrite Hkey;
    repeat match goal with
           | |- context [if (?a =? ?b)%string then _ else _] =>
               destruct (a =? b)%string
           | |- context [match ParseInt ?a with _ => _ end] =>
               destruct (ParseInt a) as [l [?|]]
           | |- context [if ?l <? 0 then _ else _] => destruct (l <? 0)
           end;
    intros Hret; inversion Hret; subst; reflexivity.
Qed.

Lemma parseClauses_keep_max cons c errs c' errs' :
  Forall (fun con => clauseKey con <> "max") cons ->
  parseClauses cons (c, errs) = Ret (c', errs') ->
  max c' = max c.
Proof.
  intros H. revert c errs.
  induction H as [|con rest Hcon _ IH]; intros c errs; cbn [parseClauses].
  - intros Hret. now inversion Hret.
  - destruct (parseClause con (c, errs)) as [[c1 e1]|msg] eqn:E; cbn [bind];
      [|discriminate].
    intros Hret. rewrite (IH _ _ Hret).
    exact (parseClause_keeps_max _ _ _ _ _ Hcon E).
Qed.

(** X12: the last [max] clause wins.  When the rule string holds a
    clause [max:s] whose value converts to [m], no clause after it has
    the key [max], and the parser returns, the [max] of the constraint
    set is [m], whatever the clauses before it set. *)
Theorem ParseConstraints_last_max f errs pre s m post c pe :
  Split (Tag_validate f) ";" = pre ++ ("max:" ++ s)%string :: post ->
  Atoi s = (m, None) ->
  Forall (fun con => clauseKey con <> "max") post ->
  ParseConstraints f errs = Ret (c, pe) ->
  max c = m.
Proof.
  intros HS HA Hpost. unfold ParseConstraints.
  destruct (Tag_validate f) as [|ch rest] eqn:E.
  - destruct pre as [|x pre]; [discriminate|].
    destruct pre; discriminate.
  - cbn [String.length Nat.eqb negb]. rewrite HS, parseClauses_app.
    destruct (parseClauses pre (NewConstraints, errs)) as [[c1 e1]|msg];
      cbn [bind parseClauses]; [|discriminate].
    rewrite (parseClause_max s m c1 e1 HA). cbn [bind].
    intros Hret. now rewrite (parseClauses_keep_max _ _ _ _ _ Hpost Hret).
Qed.

Lemma ParseConstraints_last_max_witness :
  max (set_min (set_max (set_len NewConstraints 2) 7) 1) = 7.
Proof.
  apply (ParseConstraints_last_max (field "F" true "max:1;len:2;max:7;min:1") []
           ["max:1"; "len:2"] "7" 7 ["min:1"] _ []).
  - reflexivity.
  - reflexivity.
  - repeat constructor; discriminate.
  - reflexivity.
Defined.

(** ** The [len] and [in] clauses *)

(** X13: the rule of the single clause [len:s], where [s] converts to
    [l]: a negative [l] adds the "wrong length" violation and sets
    nothing; any other [l], 0 among them, is set as the length and adds
    nothing. *)
Theorem ParseConstraints_len fieldName exported s l errs :
  Atoi s = (l, None) ->
  ParseConstraints (field fieldName exported ("len:" ++ s)) errs
  = Ret (if l <? 0
         then (NewConstraints, errs ++ [{| Err := errors_New "wrong length" |}])
         else (set_len NewConstraints l, errs)).
Proof.
  intros HA.
  destruct (Split_clause "len" s l HA eq_refl eq_refl) as [H1 H2].
  unfold ParseConstraints. cbn [Tag_validate field].
  change ("len:" ++ s)%string with ("len" ++ String ":" s)%string.
  rewrite H1. cbn [String.length Nat.eqb negb append parseClauses parseClause].
  change (String "l" (String "e" (String "n" (String ":" s))))
    with ("len" ++ String ":" s)%string.
  rewrite H2. cbn [index nth_error bind]. cbn [String.eqb Ascii.eqb Bool.eqb].
  unfold ParseInt. rewrite HA. now destruct (l <? 0).
Qed.

Lemma ParseConstraints_len_witness :
  ParseConstraints (field "F" true ("len:" ++ "-2")) [InvalidSyntax]
  = Ret (if -2 <? 0
         then (NewConstraints, [InvalidSyntax] ++ [{| Err := errors_New "wrong length" |}])
         else (set_len NewConstraints (-2), [InvalidSyntax])).
Proof.
  apply (ParseConstraints_len "F" true "-2" (-2) [InvalidSyntax]). reflexivity.
Defined.

Lemma findString_In text tokens :
  findString text tokens = true <-> In text tokens.
Proof.
  induction tokens as [|s rest IH]; cbn [findString In].
  - split; [discriminate | contradiction].
  - destruct (String.eqb_spec text s) as [->|Hne].
    + split; [now left | reflexivity].
    + rewrite IH. split; [now right | intros [E|H]; [congruence | exact H]].
Qed.

Lemma Validate_record1 fieldName tag val c pe :
  ParseConstraints (field fieldName true tag) [] = Ret (c, pe) ->
  Validate (record1 fieldName tag val)
  = Ret (as_result (pe ++ CheckConstraints val fieldName c [])).
Proof.
  intros HP. unfold record1. cbn [Validate].
  rewrite (validateFields_segments _ [pe ++ CheckConstraints val fieldName c []]).
  - cbn [concat app]. now rewrite app_nil_r.
  - repeat constructor. exists c, pe. now split.
Qed.

(** X14: the rule of the single clause [in:] followed by tokens joined
    by commas, none of the tokens holding [";"], [":"] or [","], sets
    exactly these tokens as the allowed values; and a text field with
    this rule validates with no error exactly when its text is one of
    the tokens. *)
Theorem in_rule_of_tokens fieldName tokens text :
  tokens <> [] ->
  Forall (fun s => occurs ";" s = false /\ occurs ":" s = false
                   /\ occurs "," s = false) tokens ->
  (forall exported errs,
     ParseConstraints (field fieldName exported ("in:" ++ Join tokens ",")) errs
     = Ret (set_in NewConstraints (Some tokens), errs))
  /\ (Validate (record1 fieldName ("in:" ++ Join tokens ",") (VString text))
        = Ret nil_error
      <-> In text tokens).
Proof.
  intros Hne H.
  assert (Hsemi : occurs ";" (Join tokens ",") = false).
  { apply occurs_Join; [|reflexivity].
    eapply Forall_impl; [|exact H]. now intros s [H1 _]. }
  assert (Hcolon : occurs ":" (Join tokens ",") = false).
  { apply occurs_Join; [|reflexivity].
    eapply Forall_impl; [|exact H]. now intros s [_ [H2 _]]. }
  assert (Hcomma : Split (Join tokens ",") "," = tokens).
  { apply Split_Join; [exact Hne|].
    eapply Forall_impl; [|exact H]. now intros s [_ [_ H3]]. }
  assert (HP : forall exported errs,
     ParseConstraints (field fieldName exported ("in:" ++ Join tokens ",")) errs
     = Ret (set_in NewConstraints (Some tokens), errs)).
  { intros exported errs. unfold ParseConstraints. cbn [Tag_validate field].
    cbn [append String.length Nat.eqb negb].
    rewrite Split_whole by (cbn [occurs Ascii.eqb Bool.eqb orb]; exact Hsemi).
    cbn [parseClauses parseClause].
    change (String "i" (String "n" (String ":" (Join tokens ","))))
      with ("in" ++ String ":" (Join tokens ","))%string.
    rewrite Split_first by reflexivity.
    rewrite (Split_whole _ _ Hcolon).
    cbn [index nth_error bind String.eqb Ascii.eqb Bool.eqb].
    now rewrite Hcomma. }
  split; [exact HP|].
  rewrite (Validate_record1 _ _ _ _ _ (HP true [])).
  cbn [app CheckConstraints]. rewrite checkStringConstraints_parts.
  unfold stringViolations, stringIn.
  cbn [app set_in NewConstraints max min len in_ Z.eqb negb andb when Value_String].
  rewrite <- findString_In.
  destruct (findString text tokens); cbn [negb when as_result];
    split; intros E; [reflexivity|reflexivity|discriminate|discriminate].
Qed.

Lemma in_rule_of_tokens_witness :
  (forall exported errs,
     ParseConstraints (field "F" exported ("in:" ++ Join ["red"; ""; "dark blue"] ",")) errs
     = Ret (set_in NewConstraints (Some ["red"; ""; "dark blue"]), errs))
  /\ (Validate (record1 "F" ("in:" ++ Join ["red"; ""; "dark blue"] ",") (VString "blue"))
        = Ret nil_error
      <-> In "blue" ["red"; ""; "dark blue"]).
Proof.
  apply (in_rule_of_tokens "F" ["red"; ""; "dark blue"] "blue").
  - discriminate.
  - repeat constructor.
Defined.

(** ** The check of a text *)

Lemma In_stringIn v text fieldName c :
  In v (stringIn text fieldName c)
  <-> v = violation fieldName not_in
      /\ exists tokens, in_ c = Some tokens /\ ~ In text tokens.
Proof.
  unfold stringIn. destruct (in_ c) as [tokens|].
  - rewrite In_when, negb_true_iff, <- not_true_iff_false, findString_In.
    split.
    + intros [H E]. split; [now symmetry | now exists tokens].
    + intros [E [tokens' [E' H]]]. inversion E'; subst. now split.
  - split; [intros [] | intros [_ [tokens [E _]]]; discriminate].
Qed.

(** X15: the four violations of the check of a text, each exactly when
    its test fails: more than a set [max] bytes, fewer than a set [min]
    bytes, a length other than a set [len], and a text that is none of
    the allowed tokens, compared as they are written. *)
Theorem checkStringConstraints_violations val fieldName c :
  (In (violation fieldName more_than_max_length)
      (checkStringConstraints val fieldName c [])
   <-> max c <> -1 /\ max c < strlen (Value_String val))
  /\ (In (violation fieldName less_than_min_length)
         (checkStringConstraints val fieldName c [])
      <-> min c <> -1 /\ strlen (Value_String val) < min c)
  /\ (In (violation fieldName not_equal_to_len)
         (checkStringConstraints val fieldName c [])
      <-> len c <> -1 /\ strlen (Value_String val) <> len c)
  /\ (In (violation fieldName not_in)
         (checkStringConstraints val fieldName c [])
      <-> exists tokens, in_ c = Some tokens /\ ~ In (Value_String val) tokens).
Proof.
  rewrite checkStringConstraints_parts. unfold stringViolations. cbn [app].
  rewrite <- set_and_above, <- set_and_below.
  assert (Hlen : negb (len c =? -1) && negb (strlen (Value_String val) =? len c) = true
                 <-> len c <> -1 /\ strlen (Value_String val) <> len c)
    by now rewrite andb_true_iff, !negb_true_iff, !Z.eqb_neq.
  rewrite <- Hlen. clear Hlen.
  repeat split; rewrite ?in_app_iff, ?In_when, ?In_stringIn;
    try (intros [[H E]|[[H E]|[[H E]|[E H]]]];
         try (apply violation_inj in E; discriminate); assumption);
    intros H; tauto.
Qed.

Lemma when_nil b v : when b v = [] <-> b = false.
Proof. destruct b; cbn; split; congruence. Qed.

Lemma app_nil_iff (a b : ValidationErrors) : a ++ b = [] <-> a = [] /\ b = [].
Proof.
  split; [apply app_eq_nil | intros [-> ->]; reflexivity].
Qed.

Lemma unset_or_le m x :
  negb (m =? -1) && (m <? x) = false <-> m = -1 \/ x <= m.
Proof. destruct (Z.eqb_spec m (-1)), (Z.ltb_spec m x); cbn; intuition (discriminate || lia). Qed.

Lemma unset_or_ge m x :
  negb (m =? -1) && (x <? m) = false <-> m = -1 \/ m <= x.
Proof. destruct (Z.eqb_spec m (-1)), (Z.ltb_spec x m); cbn; intuition (discriminate || lia). Qed.

Lemma unset_or_eq m x :
  negb (m =? -1) && negb (x =? m) = false <-> m = -1 \/ x = m.
Proof. destruct (Z.eqb_spec m (-1)), (Z.eqb_spec x m); cbn; intuition (discriminate || lia). Qed.

Lemma adds_nothing (errs added : ValidationErrors) :
  errs ++ added = errs <-> added = [].
Proof.
  split; [|intros ->; apply app_nil_r].
  intros H. rewrite <- (app_nil_r errs) in H at 2. now apply app_inv_head in H.
Qed.

Lemma stringIn_nil text fieldName c :
  stringIn text fieldName c = []
  <-> forall tokens, in_ c = Some tokens -> In text tokens.
Proof.
  unfold stringIn. destruct (in_ c) as [tokens|].
  - rewrite when_nil, negb_false_iff, findString_In.
    split; [intros H tokens' E; now inversion E; subst | intros H; now apply H].
  - split; [intros _ tokens E; discriminate | reflexivity].
Qed.

(** X16: the check of a text adds nothing exactly when the text
    satisfies every constraint that is set: at most [max] bytes, at
    least [min] bytes, exactly [len] bytes, and one of the allowed
    tokens. *)
Theorem checkStringConstraints_passes val fieldName c errs :
  checkStringConstraints val fieldName c errs = errs
  <-> (max c = -1 \/ strlen (Value_String val) <= max c)
      /\ (min c = -1 \/ min c <= strlen (Value_String val))
      /\ (len c = -1 \/ strlen (Value_String val) = len c)
      /\ (forall tokens, in_ c = Some tokens -> In (Value_String val) tokens).
Proof.
  rewrite checkStringConstraints_parts, adds_nothing.
  unfold stringViolations.
  rewrite !app_nil_iff, !when_nil.
  now rewrite unset_or_le, unset_or_ge, unset_or_eq, stringIn_nil.
Qed.

(** ** The check of an integer *)

Lemma findInt_all_convert n tokens :
  Forall (fun s => converts s = true) tokens ->
  findInt n tokens [] = (member n tokens, []).
Proof.
  unfold member.
  induction 1 as [|s rest Hs _ IH]; [reflexivity|].
  cbn [findInt existsb]. rewrite Hs. unfold converts in Hs.
  destruct (Atoi s) as [num [e|]]; cbn [fst snd] in *; [discriminate|].
  cbn [andb]. destruct (n =? num); [reflexivity | exact IH].
Qed.

(** X17: when every allowed token converts, the check of an integer adds
    nothing exactly when the value is at most a set [max], at least a
    set [min], is the number of one of the tokens, and no [len] is set;
    with a [len] set no integer passes. *)
Theorem checkIntConstraints_passes n fieldName c errs :
  (forall tokens, in_ c = Some tokens -> Forall (fun s => converts s = true) tokens) ->
  checkIntConstraints n fieldName c errs = errs
  <-> (max c = -1 \/ n <= max c)
      /\ (min c = -1 \/ min c <= n)
      /\ len c = -1
      /\ (forall tokens, in_ c = Some tokens -> member n tokens = true).
Proof.
  intros Hconv.
  assert (Hin : intIn n fieldName c = []
                <-> forall tokens, in_ c = Some tokens -> member n tokens = true).
  { unfold intIn. destruct (in_ c) as [tokens|] eqn:E.
    - rewrite (findInt_all_convert n tokens (Hconv tokens eq_refl)).
      cbn [fst snd app]. rewrite when_nil, negb_false_iff.
      split; [intros H tokens' E'; now inversion E'; subst | intros H; now apply H].
    - split; [intros _ tokens E'; discriminate | reflexivity]. }
  rewrite checkIntConstraints_parts, adds_nothing.
  unfold intViolations.
  rewrite !app_nil_iff, !when_nil.
  now rewrite unset_or_le, unset_or_ge, negb_false_iff, Z.eqb_eq, Hin.
Qed.

Lemma checkIntConstraints_passes_witness :
  checkIntConstraints 2 "F" {| len := -1; in_ := Some ["1"; "2"]; min := 0; max := 5 |}
    [InvalidSyntax] = [InvalidSyntax]
  <-> (max {| len := -1; in_ := Some ["1"; "2"]; min := 0; max := 5 |} = -1
       \/ 2 <= max {| len := -1; in_ := Some ["1"; "2"]; min := 0; max := 5 |})
      /\ (min {| len := -1; in_ := Some ["1"; "2"]; min := 0; max := 5 |} = -1
          \/ min {| len := -1; in_ := Some ["1"; "2"]; min := 0; max := 5 |} <= 2)
      /\ len {| len := -1; in_ := Some ["1"; "2"]; min := 0; max := 5 |} = -1
      /\ (forall tokens,
            in_ {| len := -1; in_ := Some ["1"; "2"]; min := 0; max := 5 |} = Some tokens ->
            member 2 tokens = true).
Proof.
  apply (checkIntConstraints_passes 2 "F"
           {| len := -1; in_ := Some ["1"; "2"]; min := 0; max := 5 |} [InvalidSyntax]).
  simpl. intros tokens E. inversion E. repeat constructor.
Defined.

(** ** [len] on a slice of integers *)

Lemma countInvalidSyntax_intViolations n fieldName c :
  len c <> -1 -> in_ c = None ->
  countInvalidSyntax (intViolations n fieldName c) = 1%nat.
Proof.
  intros Hlen Hin. unfold intViolations, intIn. rewrite Hin.
  apply Z.eqb_neq in Hlen. rewrite Hlen. cbn [negb when].
  now rewrite !countInvalidSyntax_app, !countInvalidSyntax_when.
Qed.

(** X18: on a slice of integers whose constraint set has [len] and no
    [in], the check emits one [InvalidSyntax] for each element: none for
    the empty slice, and as many as the slice is long otherwise. *)
Theorem checkSliceConstraints_len ns fieldName c :
  len c <> -1 -> in_ c = None ->
  countInvalidSyntax (checkSliceConstraints (map VInt ns) fieldName c [])
  = List.length ns.
Proof.
  intros Hlen Hin. unfold checkSliceConstraints.
  rewrite checkElements_parts. cbn [app].
  generalize 0%nat.
  induction ns as [|n ns IH]; intros i; [reflexivity|].
  cbn [map elementsViolations elementViolations List.length].
  rewrite countInvalidSyntax_app, IH.
  now rewrite countInvalidSyntax_intViolations.
Qed.

Lemma checkSliceConstraints_len_witness :
  countInvalidSyntax
    (checkSliceConstraints (map VInt [4; 5; 6]) "F" (set_len NewConstraints 2) [])
  = List.length [4; 5; 6].
Proof.
  apply (checkSliceConstraints_len [4; 5; 6] "F" (set_len NewConstraints 2)).
  - simpl. lia.
  - reflexivity.
Defined.

(** ** The search of the integer checker, as it is *)

Lemma findInt_found n tokens errs :
  fst (findInt n tokens errs) = existsb (fun s => n =? fst (Atoi s)) tokens.
Proof.
  revert errs.
  induction tokens as [|s rest IH]; intros errs; [reflexivity|].
  cbn [findInt existsb]. destruct (Atoi s) as [num err]. cbn [fst].
  destruct (n =? num); [reflexivity | apply IH].
Qed.

(** X19: the check of an integer emits the "not contained" violation
    exactly when there are allowed tokens and the value is the number
    that [strconv.Atoi] gives for none of them; a token that does not
    convert takes part in the comparison with the number that [Atoi]
    gives back with its error. *)
Theorem checkIntConstraints_not_in n fieldName c :
  In (violation fieldName not_in) (checkIntConstraints n fieldName c [])
  <-> exists tokens,
        in_ c = Some tokens /\ forall s, In s tokens -> fst (Atoi s) <> n.
Proof.
  rewrite checkIntConstraints_parts. unfold intViolations. cbn [app].
  rewrite !in_app_iff, !In_when.
  assert (Hin : In (violation fieldName not_in) (intIn n fieldName c)
                <-> exists tokens,
                      in_ c = Some tokens
                      /\ forall s, In s tokens -> fst (Atoi s) <> n).
  { unfold intIn. destruct (in_ c) as [tokens|].
    - rewrite in_app_iff, In_when, negb_true_iff, findInt_found.
      rewrite <- not_true_iff_false, existsb_exists.
      split.
      + intros [H|[H _]].
        * apply findInt_only_syntax in H. discriminate.
        * exists tokens. split; [reflexivity|].
          intros s Hs E. apply H. exists s. split; [exact Hs|].
          apply Z.eqb_eq. now symmetry.
      + intros [tokens' [E H]]. inversion E; subst. right. split; [|reflexivity].
        intros [s [Hs E']]. apply Z.eqb_eq in E'. now apply (H s Hs).
    - split; [intros [] | intros [tokens [E _]]; discriminate]. }
  rewrite Hin. split; [|tauto].
  intros [[_ E]|[[_ E]|[[_ E]|H]]]; try exact H;
    try (apply violation_inj in E); discriminate.
Qed.

(** ** The names of the elements of a slice *)




